(** * Vault statistics plugin: aggregation engine and markdown tokenizer

    A shallow embedding of the collector module (the
    [FullVaultMetricsCollector] and the two per-file collectors) and of
    [text.ts] (the tokenizers), followed by the properties of the
    specification that were checked against them. *)

From Stdlib Require Import QArith Ascii String.
From stdpp Require Import gmap list strings.

Local Open Scope Z_scope.
Local Open Scope list_scope.

(** ** JavaScript strings

    A JavaScript string is a sequence of UTF-16 code units.  Regular
    expressions without the [u] flag, [split], [includes], [substring]
    and [===] all work on code units, so this is the representation
    used everywhere. *)

Abbreviation jsstring := (list N).

(** Literals of the source are ASCII; [js] turns one into code units. *)
Fixpoint js (s : string) : jsstring :=
  match s with
  | EmptyString => []
  | String a s' => N_of_ascii a :: js s'
  end.

(** ** [FullVaultMetrics] *)

Module FVM.

(** The fields are the ones the collectors assign.  Counts and sizes are
    integers (JavaScript numbers holding integers are exact below 2^53);
    [quality] is a ratio of two of them. *)
Record t : Type := mk {
  files : Z;
  notes : Z;
  attachments : Z;
  size : Z;
  links : Z;
  words : Z;
  quality : Q;
  tags : Z
}.

(** [metrics.notes !== 0 ? (metrics.links / metrics.notes) : 0.0], the
    expression [NoteMetricsCollector.collect] uses for [quality]. *)
Definition ratio (l n : Z) : Q :=
  if n =? 0 then 0%Q else (inject_Z l / inject_Z n)%Q.

(** Modelled from the spec: the class [FullVaultMetrics] is declared in
    [./metrics], which is not among the sources.  A fresh instance has
    every field at zero. *)
Definition zero : t := mk 0 0 0 0 0 0 0%Q 0.

(** Modelled from the spec: [reset] of [./metrics]; the aggregate is
    rebuilt from nothing on each start. *)
Definition reset (_ : t) : t := zero.

(** Modelled from the spec: [dec] of [./metrics] subtracts a record
    from the aggregate field by field; the quality of the aggregate is
    recomputed from the new sums, not subtracted. *)
Definition dec (agg m : t) : t :=
  let l := links agg - links m in
  let n := notes agg - notes m in
  mk (files agg - files m) n (attachments agg - attachments m)
     (size agg - size m) l (words agg - words m) (ratio l n)
     (tags agg - tags m).

(** Modelled from the spec: [inc] of [./metrics] adds a record to the
    aggregate field by field and recomputes the quality.  [update] also
    reaches it with [null]; a missing record contributes nothing. *)
Definition inc (agg : t) (m : option t) : t :=
  match m with
  | None => agg
  | Some m =>
      let l := links agg + links m in
      let n := notes agg + notes m in
      mk (files agg + files m) n (attachments agg + attachments m)
         (size agg + size m) l (words agg + words m) (ratio l n)
         (tags agg + tags m)
  end.

End FVM.

(** ** Files of the vault *)

(** What the collector reads of a [TFile]: its path, its extension (read
    through [?.], so possibly absent) and [stat.size] (the Obsidian API
    declares [stat] on every file, so the size is a number). *)
Record TFile : Type := mkTFile {
  path : jsstring;
  extension : option jsstring;
  stat_size : Z
}.

(** [vault.getAbstractFileByPath] answers with a file, a folder or
    [null]; change events deliver files and folders alike. *)
Inductive TAbstractFile : Type :=
| IsFile (f : TFile)
| IsFolder (p : jsstring).

(** ** The collector's state *)

Record Collector : Type := mkCollector {
  data : gmap jsstring FVM.t;
  backlog : list jsstring;
  excludeDirectories : jsstring;
  vaultMetrics : FVM.t
}.

(** State of a freshly constructed collector, which is also what [start]
    re-establishes: empty map, empty backlog, aggregate reset. *)
Definition fresh (exclude : jsstring) : Collector :=
  mkCollector ∅ [] exclude FVM.zero.

(** [Array.prototype.contains] (Obsidian's alias of [includes]) on an
    array of strings. *)
Definition contains (l : list jsstring) (p : jsstring) : bool :=
  bool_decide (p ∈ l).

(** [push(fileOrPath)]: folders are ignored, a file stands for its path,
    and the path is appended unless the backlog already holds it. *)
Definition push (fileOrPath : TAbstractFile + jsstring) (c : Collector) : Collector :=
  match fileOrPath with
  | inl (IsFolder _) => c
  | inl (IsFile f) =>
      if contains (backlog c) (path f) then c
      else mkCollector (data c) (backlog c ++ [path f]) (excludeDirectories c) (vaultMetrics c)
  | inr p =>
      if contains (backlog c) p then c
      else mkCollector (data c) (backlog c ++ [p]) (excludeDirectories c) (vaultMetrics c)
  end.

(** [update(fileOrPath, metrics)]: take the key's previous record (or a
    fresh one) out of the aggregate, store or delete, add the new one. *)
Definition update (fileOrPath : TFile + jsstring) (metrics : option FVM.t)
    (c : Collector) : Collector :=
  let key := match fileOrPath with inl f => path f | inr p => p end in
  let vm := FVM.dec (vaultMetrics c) (default FVM.zero (data c !! key)) in
  let data' :=
    match metrics with
    | None => delete key (data c)
    | Some m => <[key := m]> (data c)
    end in
  mkCollector data' (backlog c) (excludeDirectories c) (FVM.inc vm metrics).

(** A sequence of [update] calls, each with a record. *)
Definition apply_all (ops : list ((TFile + jsstring) * FVM.t)) (c : Collector) : Collector :=
  fold_left (fun c op => update (fst op) (Some (snd op)) c) ops c.

(** Sum of one field over the records a map holds. *)
Definition sum_of (f : FVM.t -> Z) (m : gmap jsstring FVM.t) : Z :=
  map_fold (fun _ v acc => f v + acc) 0 m.

(** ** Regular expressions

    The patterns of [text.ts] are run by a backtracking matcher written
    after the ECMAScript one: a pattern is matched against a state (the
    position, the input left, the captures so far) and a continuation
    that says whether the rest of the pattern accepts; alternatives are
    tried in order and the first success wins. *)

Module Regex.

Inductive t : Type :=
| Empty
| Chars (p : N -> bool)          (* one code unit satisfying [p] *)
| Seq (r1 r2 : t)
| Alt (r1 r2 : t)
| Star (greedy : bool) (r : t)   (* [r*] and [r*?] *)
| Opt (r : t)                    (* [r?] *)
| Group (n : nat) (r : t)        (* the [n]-th capturing parenthesis *)
| Bol                            (* [^], no [m] flag *)
| Eol.                           (* [$], no [m] flag *)

(** [caps] is the array [exec] returns: index 0 is the whole match and
    index [n] the [n]-th group, [None] standing for [undefined]. *)
Record MState : Type := mkState {
  pos : nat;
  rest : jsstring;
  caps : list (option jsstring)
}.

Definition Cont : Type := MState -> option MState.

Definition advance (x : MState) (cs : jsstring) : MState :=
  mkState (S (pos x)) cs (caps x).

(** The input consumed between two states of one run. *)
Definition captured (x y : MState) : jsstring :=
  take (pos y - pos x) (rest x).

Definition set_cap (n : nat) (w : jsstring) (y : MState) : MState :=
  mkState (pos y) (rest y) (<[n := Some w]> (caps y)).

(** The loop of a starred body.  An iteration that consumes nothing is
    rejected, as in ECMAScript, so every iteration shortens the input
    and [fuel] above its length is never used up. *)
Fixpoint star_loop (body : MState -> Cont -> option MState) (greedy : bool)
    (k : Cont) (fuel : nat) (x : MState) : option MState :=
  match fuel with
  | O => None
  | S fuel' =>
      let again (y : MState) :=
        if (pos x <? pos y)%nat then star_loop body greedy k fuel' y else None in
      if greedy then
        match body x again with
        | Some z => Some z
        | None => k x
        end
      else
        match k x with
        | Some z => Some z
        | None => body x again
        end
  end.

Fixpoint run (r : t) (x : MState) (k : Cont) : option MState :=
  match r with
  | Empty => k x
  | Chars p =>
      match rest x with
      | c :: cs => if p c then k (advance x cs) else None
      | [] => None
      end
  | Seq r1 r2 => run r1 x (fun y => run r2 y k)
  | Alt r1 r2 =>
      match run r1 x k with
      | Some z => Some z
      | None => run r2 x k
      end
  | Star greedy r' => star_loop (run r') greedy k (S (length (rest x))) x
  | Opt r' =>
      match run r' x (fun y => if (pos x <? pos y)%nat then k y else None) with
      | Some z => Some z
      | None => k x
      end
  | Group n r' => run r' x (fun y => k (set_cap n (captured x y) y))
  | Bol => if (pos x =? 0)%nat then k x else None
  | Eol => match rest x with [] => k x | _ :: _ => None end
  end.

(** Number of capturing parentheses, which fixes the length of the
    match array. *)
Fixpoint ngroups (r : t) : nat :=
  match r with
  | Seq r1 r2 | Alt r1 r2 => (ngroups r1 + ngroups r2)%nat
  | Star _ r' | Opt r' => ngroups r'
  | Group _ r' => S (ngroups r')
  | _ => O
  end.

Definition start_state (r : t) (q : nat) (s : jsstring) : MState :=
  mkState q s (replicate (S (ngroups r)) None).

(** Try the pattern at the current position, then one further on, up
    to and including the end of the input. *)
Fixpoint exec_from (r : t) (q : nat) (s : jsstring) : option (list (option jsstring)) :=
  let x := start_state r q s in
  match run r x Some with
  | Some y => Some (<[O := Some (captured x y)]> (caps y))
  | None =>
      match s with
      | [] => None
      | _ :: s' => exec_from r (S q) s'
      end
  end.

(** [pattern.exec(s)] for a pattern without the [g] and [y] flags. *)
Definition exec (r : t) (s : jsstring) : option (list (option jsstring)) :=
  exec_from r O s.

(** The loop of [String.prototype.split] with a pattern: [cur] holds
    the code units since the end of the last separator (latest first)
    and [skip] the code units of a separator still to be passed. *)
Fixpoint split_loop (r : t) (q : nat) (cur : jsstring) (skip : nat)
    (s : jsstring) : list jsstring :=
  match s with
  | [] => [rev cur]
  | c :: s' =>
      match skip with
      | S k => split_loop r (S q) [] k s'
      | O =>
          match run r (start_state r q s) Some with
          | None => split_loop r (S q) (c :: cur) O s'
          | Some y =>
              if (pos y =? q)%nat then
                match cur with
                | [] => split_loop r (S q) [c] O s'
                | _ :: _ => rev cur :: split_loop r (S q) [c] O s'
                end
              else rev cur :: split_loop r (S q) [] (pos y - q - 1) s'
          end
      end
  end.

Definition split (r : t) (s : jsstring) : list jsstring :=
  match s with
  | [] => match run r (start_state r O s) Some with Some _ => [] | None => [s] end
  | _ :: _ => split_loop r O [] O s
  end.

(** Derived forms. *)
Definition Plus (r : t) : t := Seq r (Star true r).
Definition Chr (a : ascii) : t := Chars (N.eqb (N_of_ascii a)).
Fixpoint Lit (s : string) : t :=
  match s with
  | EmptyString => Empty
  | String a EmptyString => Chr a
  | String a s' => Seq (Chr a) (Lit s')
  end.

End Regex.

Import Regex.
Infix "-:-" := Seq (at level 60, right associativity).

(** ** Character classes and patterns of [text.ts] *)

Local Open Scope N_scope.

Definition in_range (lo hi c : N) : bool := (lo <=? c) && (c <=? hi).

(** [\d] *)
Definition is_digit (c : N) : bool := in_range 48 57 c.

(** [\w]: [A-Za-z0-9_] *)
Definition is_word (c : N) : bool :=
  in_range 65 90 c || in_range 97 122 c || is_digit c || (c =? 95).

(** [а-яА-ЯёЁ] *)
Definition is_cyrillic (c : N) : bool :=
  in_range 0x430 0x44F c || in_range 0x410 0x42F c || (c =? 0x451) || (c =? 0x401).

(** The characters the specification calls word characters. *)
Definition word_char (c : N) : bool := is_word c || is_cyrillic c.

(** What [.] refuses: line feed, carriage return, U+2028, U+2029. *)
Definition is_line_terminator (c : N) : bool :=
  (c =? 0x0A) || (c =? 0x0D) || (c =? 0x2028) || (c =? 0x2029).

(** What [trim] removes: white space and line terminators. *)
Definition is_white_space (c : N) : bool :=
  in_range 0x09 0x0D c || (c =? 0x20) || (c =? 0xA0) || (c =? 0x1680)
  || in_range 0x2000 0x200A c || is_line_terminator c || (c =? 0x202F)
  || (c =? 0x205F) || (c =? 0x3000) || (c =? 0xFEFF).

(** The class of [WORD_BOUNDARY]: space, line feed, carriage return,
    tab, double quote, [|], comma, parentheses, square brackets, [/]. *)
Definition is_boundary (c : N) : bool :=
  (c =? 32) || (c =? 10) || (c =? 13) || (c =? 9) || (c =? 34) || (c =? 124)
  || (c =? 44) || (c =? 40) || (c =? 41) || (c =? 91) || (c =? 93) || (c =? 47).

Local Close Scope N_scope.

Definition Dot : Regex.t := Chars (fun c => negb (is_line_terminator c)).

(** The double quote, code unit 34. *)
Definition DQuote : Regex.t := Chars (N.eqb 34).

(** [/^[^\wа-яА-ЯёЁ]+$/] *)
Definition NON_WORDS : Regex.t :=
  Bol -:- Plus (Chars (fun c => negb (word_char c))) -:- Eol.

(** [/^\d+(\.\d+)?$/] *)
Definition NUMBER : Regex.t :=
  Bol -:- Plus (Chars is_digit) -:- Opt (Group 1 (Chr "." -:- Plus (Chars is_digit))) -:- Eol.

(** [/^```\w+$/] *)
Definition CODE_BLOCK_HEADER : Regex.t :=
  Bol -:- Lit "```" -:- Plus (Chars is_word) -:- Eol.

(** [/^(==)?(.*?)(==)?$/] *)
Definition STRIP_HIGHLIGHTS : Regex.t :=
  Bol -:- Opt (Group 1 (Lit "==")) -:- Group 2 (Star false Dot)
      -:- Opt (Group 3 (Lit "==")) -:- Eol.

(** [_+|\*+] *)
Definition emphasis : Regex.t := Alt (Plus (Chr "_")) (Plus (Chr "*")).

(** [/^(_+|\*+)?(.*?)(_+|\*+)?$/] *)
Definition STRIP_FORMATTING : Regex.t :=
  Bol -:- Opt (Group 1 emphasis) -:- Group 2 (Star false Dot)
      -:- Opt (Group 3 emphasis) -:- Eol.

(** Backtick, full stop, colon, double quote, comma, [!] or [?]. *)
Definition punctuation : Regex.t :=
  Alt (Chr "`") (Alt (Chr ".") (Alt (Chr ":") (Alt DQuote
    (Alt (Chr ",") (Alt (Chr "!") (Chr "?")))))).

(** [/^(P)?(.*?)(P)?$/] with [P] the alternation above. *)
Definition STRIP_PUNCTUATION : Regex.t :=
  Bol -:- Opt (Group 1 punctuation) -:- Group 2 (Star false Dot)
      -:- Opt (Group 3 punctuation) -:- Eol.

(** [/^(\[\[)?(.*?)(\]\])?$/] *)
Definition STRIP_WIKI_LINKS : Regex.t :=
  Bol -:- Opt (Group 1 (Lit "[[")) -:- Group 2 (Star false Dot)
      -:- Opt (Group 3 (Lit "]]")) -:- Eol.

(** One or more boundary characters. *)
Definition WORD_BOUNDARY : Regex.t := Plus (Chars is_boundary).

(** ** Exceptions and the receiver of a method *)

Inductive Error : Type :=
| TypeError      (* [this.strip] used where [this] is not the tokenizer *)
| Unfinished.    (* a loop of the model that used up its fuel *)

Inductive Exc (A : Type) : Type :=
| Ok (a : A)
| Throw (e : Error).
Arguments Ok {A} a.
Arguments Throw {A} e.

Definition bind {A B : Type} (m : Exc A) (f : A -> Exc B) : Exc B :=
  match m with
  | Ok a => f a
  | Throw e => Throw e
  end.

Notation "x <- m ;; k" := (bind m (fun x => k))
  (at level 100, m at next level, right associativity).

(** [Array.prototype.map] with a callback that may throw: the elements
    are visited in order and the first exception ends the call. *)
Fixpoint map_exc {A B : Type} (f : A -> Exc B) (l : list A) : Exc (list B) :=
  match l with
  | [] => Ok []
  | a :: l' => b <- f a ;; bs <- map_exc f l' ;; Ok (b :: bs)
  end.

(** The value of [this] inside a method of the tokenizer: the tokenizer
    when the method is called on it, [undefined] when the method is
    handed over as a bare function, as [Array.prototype.map] is given no
    [thisArg]. *)
Inductive This : Type :=
| this_undefined
| this_tokenizer.

(** [this.strip(...)] at the head of a strip method: class bodies are
    strict code, so [this] is [undefined] in a bare call and reading its
    property throws a [TypeError]. *)
Definition on_this {A : Type} (this : This) (result : A) : Exc A :=
  match this with
  | this_undefined => Throw TypeError
  | this_tokenizer => Ok result
  end.

(** ** [MarkdownTokenizer] *)

Definition isNonWord (token : jsstring) : bool :=
  bool_decide (is_Some (exec NON_WORDS token)).

Definition isNumber (token : jsstring) : bool :=
  bool_decide (is_Some (exec NUMBER token)).

Definition isCodeBlockHeader (token : jsstring) : bool :=
  bool_decide (is_Some (exec CODE_BLOCK_HEADER token)).

(** [strip(pattern, token)]: the second group of the match, or the empty
    string when there is no match or the match array is too short.  (In
    the four patterns above group 2 takes part in every match.) *)
Definition strip (pattern : Regex.t) (token : jsstring) : jsstring :=
  match exec pattern token with
  | Some m =>
      if (3 <=? length m)%nat then
        match m !! 2%nat with
        | Some (Some w) => w
        | _ => []
        end
      else []
  | None => []
  end.

Definition stripHighlights (this : This) (token : jsstring) : Exc jsstring :=
  on_this this (strip STRIP_HIGHLIGHTS token).

Definition stripFormatting (this : This) (token : jsstring) : Exc jsstring :=
  on_this this (strip STRIP_FORMATTING token).

Definition stripPunctuation (this : This) (token : jsstring) : Exc jsstring :=
  on_this this (strip STRIP_PUNCTUATION token).

Definition stripWikiLinks (this : This) (token : jsstring) : Exc jsstring :=
  on_this this (strip STRIP_WIKI_LINKS token).

(** One pass of the loop of [stripAll]:
    [[token].map(f1).map(f2).map(f3).map(f4)[0]], where [cb] is what
    the four callbacks see as [this]. *)
Definition strip_pass (cb : This) (token : jsstring) : Exc jsstring :=
  t1 <- stripHighlights cb token ;;
  t2 <- stripFormatting cb t1 ;;
  t3 <- stripPunctuation cb t2 ;;
  stripWikiLinks cb t3.

(** The [while (!isFixedPoint)] loop, with the number of passes made.
    [None] means the fuel ran out before the loop ended. *)
Fixpoint stripAll_loop (cb : This) (fuel : nat) (token : jsstring)
    : option (nat * Exc jsstring) :=
  match fuel with
  | O => None
  | S fuel' =>
      match strip_pass cb token with
      | Throw e => Some (1%nat, Throw e)
      | Ok token' =>
          if decide (token = token') then Some (1%nat, Ok token')
          else
            match stripAll_loop cb fuel' token' with
            | Some (n, r) => Some (S n, r)
            | None => None
            end
      end
  end.

Definition stripAll_with (cb : This) (token : jsstring) : Exc jsstring :=
  if decide (token = []) then Ok token
  else
    match stripAll_loop cb (S (length token)) token with
    | Some (_, r) => r
    | None => Throw Unfinished
    end.

(** [stripAll] as written: the four strip methods are passed to [map]
    unbound, so they run with [this] undefined. *)
Definition stripAll (token : jsstring) : Exc jsstring :=
  stripAll_with this_undefined token.

Fixpoint trimStart (s : jsstring) : jsstring :=
  match s with
  | c :: s' => if is_white_space c then trimStart s' else s
  | [] => []
  end.

Definition trim (s : jsstring) : jsstring :=
  rev (trimStart (rev (trimStart s))).

Definition tokenize_with (cb : This) (content : jsstring) : Exc (list jsstring) :=
  if decide (trim content = []) then Ok []
  else
    let candidates :=
      filter (fun token => isCodeBlockHeader token = false)
        (filter (fun token => isNumber token = false)
          (filter (fun token => isNonWord token = false)
            (Regex.split WORD_BOUNDARY content))) in
    stripped <- map_exc (stripAll_with cb) candidates ;;
    Ok (filter (fun token => (0 < length token)%nat) stripped).

(** [MarkdownTokenizer.tokenize], also exported as [markdown_tokenize]. *)
Definition markdown_tokenize (content : jsstring) : Exc (list jsstring) :=
  tokenize_with this_undefined content.

(** [UnitTokenizer.tokenize], also exported as [unit_tokenize]. *)
Definition unit_tokenize (_ : jsstring) : Exc (list jsstring) := Ok [].

(** The [Tokenizer] interface and its two instances. *)
Inductive Tokenizer : Type :=
| UNIT_TOKENIZER
| MARKDOWN_TOKENIZER.

Definition tokenize (t : Tokenizer) (content : jsstring) : Exc (list jsstring) :=
  match t with
  | UNIT_TOKENIZER => unit_tokenize content
  | MARKDOWN_TOKENIZER => markdown_tokenize content
  end.

(** ** The per-file collectors *)

(** A section of the metadata cache: its type and the two offsets, each
    read through [?.] and so possibly undefined. *)
Record SectionCache : Type := mkSection {
  sec_type : jsstring;
  startOffset : option nat;
  endOffset : option nat
}.

(** What the collectors read of [CachedMetadata]; of the links and tags
    only the number matters. *)
Record CachedMetadata : Type := mkMetadata {
  md_links : option (list jsstring);
  md_sections : option (list SectionCache);
  md_tags : option (list jsstring)
}.

(** Outcome of [metadataCache.getFileCache(file)]. *)
Inductive CacheResult : Type :=
| CacheThrows
| CacheNull
| CacheFound (m : CachedMetadata).

(** The collaborators of the collector: the vault and the metadata
    cache.  [cachedRead] is [None] when the promise is rejected. *)
Record Env : Type := mkEnv {
  getAbstractFileByPath : jsstring -> option TAbstractFile;
  getFileCache : TFile -> CacheResult;
  cachedRead : TFile -> option jsstring
}.

(** [String.prototype.substring(start, end)] on offsets that are natural
    numbers or undefined: an undefined start is 0, an undefined end is
    the length, both are clamped to the length and swapped if needed. *)
Definition substring (s : jsstring) (a b : option nat) : jsstring :=
  let len := length s in
  let a' := match a with Some n => Nat.min n len | None => O end in
  let b' := match b with Some n => Nat.min n len | None => len end in
  take (Nat.max a' b' - Nat.min a' b') (drop (Nat.min a' b') s).

(** [String.prototype.toLowerCase], exact on ASCII.  Other code units
    are left as they are: no case mapping of a non-ASCII letter yields
    the letters [m] or [d], so the comparison with [md] is unaffected. *)
Definition toLowerCase (s : jsstring) : jsstring :=
  map (fun c => if in_range 65 90 c then (c + 32)%N else c) s.

Inductive FileType : Type :=
| Unknown
| Note
| Attachment.

Definition getFileType (file : TFile) : FileType :=
  match extension file with
  | Some e => if decide (toLowerCase e = js "md") then Note else Attachment
  | None => Attachment
  end.

(** [NoteMetricsCollector.TOKENIZERS] *)
Definition TOKENIZERS : gmap jsstring Tokenizer :=
  list_to_map [
    (js "paragraph", MARKDOWN_TOKENIZER);
    (js "heading", MARKDOWN_TOKENIZER);
    (js "list", MARKDOWN_TOKENIZER);
    (js "table", UNIT_TOKENIZER);
    (js "yaml", UNIT_TOKENIZER);
    (js "code", UNIT_TOKENIZER);
    (js "blockquote", MARKDOWN_TOKENIZER);
    (js "math", UNIT_TOKENIZER);
    (js "thematicBreak", UNIT_TOKENIZER);
    (js "html", UNIT_TOKENIZER);
    (js "text", UNIT_TOKENIZER);
    (js "element", UNIT_TOKENIZER);
    (js "footnoteDefinition", UNIT_TOKENIZER);
    (js "definition", UNIT_TOKENIZER);
    (js "callout", MARKDOWN_TOKENIZER);
    (js "comment", UNIT_TOKENIZER)
  ].

(** The callback of [cachedRead(file).then]: one count per section,
    summed; [undefined] when the metadata has no sections.  A tokenizer
    that throws makes the whole callback throw. *)
Definition count_words (content : jsstring) (metadata : CachedMetadata)
    : Exc (option Z) :=
  match md_sections metadata with
  | None => Ok None
  | Some sections =>
      counts <- map_exc (fun section =>
          match TOKENIZERS !! sec_type section with
          | None => Ok 0
          | Some tokenizer =>
              tokens <- tokenize tokenizer
                          (substring content (startOffset section) (endOffset section)) ;;
              Ok (Z.of_nat (length tokens))
          end) sections ;;
      Ok (Some (fold_left Z.add counts 0))
  end.

Definition array_length (l : option (list jsstring)) : Z :=
  match l with
  | Some l => Z.of_nat (length l)
  | None => 0
  end.

(** [NoteMetricsCollector.collect].  A rejected read and an exception
    in the [then] callback both end in the [catch], which yields 0. *)
Definition note_collect (env : Env) (file : TFile) (metadata : CachedMetadata) : FVM.t :=
  let files := 1 in
  let notes := 1 in
  let attachments := 0 in
  let links := array_length (md_links metadata) in
  let words :=
    match cachedRead env file with
    | None => 0
    | Some content =>
        match count_words content metadata with
        | Ok (Some n) => n
        | Ok None => 0
        | Throw _ => 0
        end
    end in
  FVM.mk files notes attachments (stat_size file) links words
    (if decide (notes ≠ 0) then (inject_Z links / inject_Z notes)%Q else 0%Q)
    (array_length (md_tags metadata)).

(** [FileMetricsCollector.collect] *)
Definition file_collect (file : TFile) (metadata : CachedMetadata) : FVM.t :=
  FVM.mk 1 0 1 (stat_size file) 0 0 0%Q 0.

(** [FullVaultMetricsCollector.collect]: [None] is the [null] returned
    when there is no metadata, be it by [null] or by an exception (and
    the [undefined] of the switch falling through). *)
Definition collect (env : Env) (file : TFile) : option FVM.t :=
  let metadata :=
    match getFileCache env file with
    | CacheFound m => Some m
    | CacheNull => None
    | CacheThrows => None
    end in
  match metadata with
  | None => None
  | Some metadata =>
      match getFileType file with
      | Note => Some (note_collect env file metadata)
      | Attachment => Some (file_collect file metadata)
      | Unknown => None
      end
  end.

(** ** Draining the backlog *)

(** [path.split("/")]: a string separator, so every slash cuts. *)
Fixpoint split_slash (s : jsstring) : list jsstring :=
  match s with
  | [] => [[]]
  | c :: s' =>
      let r := split_slash s' in
      if (c =? 47)%N then [] :: r
      else
        match r with
        | w :: ws => (c :: w) :: ws
        | [] => [[c]]
        end
  end.

Fixpoint starts_with (s sub : jsstring) : bool :=
  match sub, s with
  | [], _ => true
  | _ :: _, [] => false
  | a :: sub', c :: s' => (a =? c)%N && starts_with s' sub'
  end.

(** [String.prototype.includes]: [sub] occurs somewhere in [s]. *)
Fixpoint includes (s sub : jsstring) : bool :=
  starts_with s sub ||
  match s with
  | [] => false
  | _ :: s' => includes s' sub
  end.

(** The exclusion test of [processBacklog]. *)
Definition excluded (c : Collector) (p : jsstring) : bool :=
  existsb (fun dir => includes (excludeDirectories c) dir) (split_slash p).

(** What [processBacklog] does with a path once it is past the exclusion
    test.  Nothing in [collect] throws past its own handlers, so the
    [try] around it has nothing to catch. *)
Definition process_path (env : Env) (p : jsstring) (c : Collector) : Collector :=
  match getAbstractFileByPath env p with
  | Some (IsFile file) =>
      match collect env file with
      | Some metrics => update (inr p) (Some metrics) c
      | None => c
      end
  | _ => c
  end.

Definition set_backlog (b : list jsstring) (c : Collector) : Collector :=
  mkCollector (data c) b (excludeDirectories c) (vaultMetrics c).

(** The [while (this.backlog.length > 0)] loop.  Every iteration shifts
    one path off the backlog, so as many iterations as the backlog is
    long are enough.  An excluded path leaves the loop ([break]). *)
Fixpoint processBacklog_loop (env : Env) (fuel : nat) (c : Collector) : Collector :=
  match fuel with
  | O => c
  | S fuel' =>
      match backlog c with
      | [] => c
      | p :: queue =>
          let c1 := set_backlog queue c in
          if excluded c1 p then c1
          else processBacklog_loop env fuel' (process_path env p c1)
      end
  end.

Definition processBacklog (env : Env) (c : Collector) : Collector :=
  processBacklog_loop env (length (backlog c)) c.

(** ** Histories of the backlog *)




(** ** Notions used to state the properties *)


(** The key [push] queues for its argument, if any. *)
Definition key_of (a : TAbstractFile + jsstring) : option jsstring :=
  match a with
  | inl (IsFolder _) => None
  | inl (IsFile f) => Some (path f)
  | inr p => Some p
  end.

(** What a run of a pattern from one state to another may be, whatever
    the order in which the matcher tries the alternatives. *)
Inductive sem : Regex.t -> MState -> MState -> Prop :=
| sem_Empty x : sem Empty x x
| sem_Chars p x c cs : rest x = c :: cs -> p c = true -> sem (Chars p) x (advance x cs)
| sem_Seq r1 r2 x y z : sem r1 x y -> sem r2 y z -> sem (Seq r1 r2) x z
| sem_AltL r1 r2 x y : sem r1 x y -> sem (Alt r1 r2) x y
| sem_AltR r1 r2 x y : sem r2 x y -> sem (Alt r1 r2) x y
| sem_StarNil g r x : sem (Star g r) x x
| sem_StarCons g r x y z : sem r x y -> sem (Star g r) y z -> sem (Star g r) x z
| sem_OptNone r x : sem (Opt r) x x
| sem_OptSome r x y : sem r x y -> sem (Opt r) x y
| sem_Group n r x y : sem r x y -> sem (Group n r) x (set_cap n (captured x y) y)
| sem_Bol x : pos x = O -> sem Bol x x
| sem_Eol x : rest x = [] -> sem Eol x x.

(** The capturing parentheses of a pattern. *)
Fixpoint groups (r : Regex.t) : list nat :=
  match r with
  | Seq r1 r2 | Alt r1 r2 => groups r1 ++ groups r2
  | Star _ r' | Opt r' => groups r'
  | Group n r' => n :: groups r'
  | _ => []
  end.

(** Every code unit a pattern can consume satisfies [M]. *)
Fixpoint within (M : N -> bool) (r : Regex.t) : Prop :=
  match r with
  | Chars p => forall c, p c = true -> M c = true
  | Seq r1 r2 | Alt r1 r2 => within M r1 /\ within M r2
  | Star _ r' | Opt r' | Group _ r' => within M r'
  | _ => True
  end.

(** [y] is [x] after some of its input has been consumed. *)
Definition extends (x y : MState) : Prop :=
  exists w, rest x = w ++ rest y /\ pos y = (pos x + length w)%nat.

(** A matcher only consults its continuation on states ahead of the one
    it was started in. *)
Definition cont_local (body : MState -> Cont -> option MState) : Prop :=
  forall x k k', (forall y, extends x y -> k y = k' y) -> body x k = body x k'.

(** A matcher for [r] is sound when each of its successes is a run of
    [r] followed by a success of the continuation. *)
Definition sound_body (body : MState -> Cont -> option MState) (r : Regex.t) : Prop :=
  forall x k z, body x k = Some z -> exists y, sem r x y /\ k y = Some z.

(** The code units the four strip patterns can take off a token. *)
Definition is_marker (c : N) : bool :=
  bool_decide (c ∈ js "=_*`.:,!?[]" ++ [34%N]).

(** [v] is [t] without some leading and some trailing markers. *)
Definition trims (t v : jsstring) : Prop :=
  exists a b, t = a ++ v ++ b /\
    Forall (fun c => is_marker c = true) a /\ Forall (fun c => is_marker c = true) b.

(** What a strip makes of a token: nothing, or the token trimmed. *)
Definition stripped_from (t v : jsstring) : Prop := v = [] \/ trims t v.

(** ** A vault with an excluded directory *)

Definition no_metadata : CachedMetadata := mkMetadata (Some []) (Some []) (Some []).

Definition archive_env : Env :=
  mkEnv
    (fun p =>
       if decide (p = js "archive/old.md") then Some (IsFile (mkTFile p (Some (js "md")) 10))
       else if decide (p = js "notes/a.md") then Some (IsFile (mkTFile p (Some (js "md")) 20))
       else None)
    (fun _ => CacheFound no_metadata)
    (fun _ => Some (js "hello")).

Definition archive_batch : Collector :=
  push (inr (js "notes/a.md")) (push (inr (js "archive/old.md")) (fresh (js "archive"))).

(** ** A note, a picture and a file that is gone *)

Local Open Scope Z_scope.

Definition five_links : CachedMetadata :=
  mkMetadata (Some [js "a"; js "b"; js "c"; js "d"; js "e"])
             (Some [mkSection (js "paragraph") (Some 0%nat) (Some 12%nat)])
             (Some [js "#t"]).

Definition upper_case_note : TFile := mkTFile (js "Notes/A.MD") (Some (js "MD")) 120.
Definition picture : TFile := mkTFile (js "img/b.png") (Some (js "png")) 2048.

Definition links_env : Env :=
  mkEnv (fun _ => None) (fun _ => CacheFound five_links) (fun _ => Some (js "Hello world."))%nat.

Definition gone : TFile := mkTFile (js "notes/gone.md") (Some (js "md")) 7.

Definition gone_env (r : CacheResult) : Env :=
  mkEnv (fun p => if decide (p = js "notes/gone.md") then Some (IsFile gone) else None)
        (fun _ => r) (fun _ => None).

Definition stale_record : FVM.t := FVM.mk 1 1 0 7 2 3 2%Q 1.

Definition stale_state : Collector :=
  push (inr (js "notes/gone.md")) (update (inr (js "notes/gone.md")) (Some stale_record) (fresh [])).

Local Close Scope Z_scope.

(** ** Events, drains and records *)

Local Open Scope Z_scope.

(** The handlers registered by [start]: each queues the file it is told
    about; a rename also queues the old path. *)
Definition onfilecreated (file : TAbstractFile) (c : Collector) : Collector :=
  push (inl file) c.

Definition onfilemodified (file : TAbstractFile) (c : Collector) : Collector :=
  push (inl file) c.

Definition onfiledeleted (file : TAbstractFile) (c : Collector) : Collector :=
  push (inl file) c.

Definition onfilerenamed (file : TAbstractFile) (oldPath : jsstring) (c : Collector) : Collector :=
  push (inr oldPath) (push (inl file) c).

(** [start], given what [vault.getFiles()] answers: the map is cleared,
    the backlog replaced by a new array, the aggregate reset, and every
    entry that is not a folder pushed.  (The registrations on the owner
    are what makes the handlers and the drain run later on.) *)
Definition start (getFiles : list TAbstractFile) (c : Collector) : Collector :=
  fold_left
    (fun c file =>
       match file with
       | IsFolder _ => c
       | IsFile _ => push (inl file) c
       end)
    getFiles
    (mkCollector ∅ [] (excludeDirectories c) (FVM.reset (vaultMetrics c))).

(** What can happen to a collector once it is built. *)
Inductive Event : Type :=
| EvStart (getFiles : list TAbstractFile)
| EvCreated (file : TAbstractFile)
| EvModified (file : TAbstractFile)
| EvDeleted (file : TAbstractFile)
| EvRenamed (file : TAbstractFile) (oldPath : jsstring)
| EvInterval (env : Env).

Definition handle (c : Collector) (e : Event) : Collector :=
  match e with
  | EvStart getFiles => start getFiles c
  | EvCreated file => onfilecreated file c
  | EvModified file => onfilemodified file c
  | EvDeleted file => onfiledeleted file c
  | EvRenamed file oldPath => onfilerenamed file oldPath c
  | EvInterval env => processBacklog env c
  end.

Definition run_events (events : list Event) (c : Collector) : Collector :=
  fold_left handle events c.

(** The exclusion test as a function of the configured string. *)
Definition excluded_by (exclude p : jsstring) : bool :=
  existsb (fun dir => includes exclude dir) (split_slash p).

(** What a drain with nothing excluded leaves in the store for a key. *)
Definition drained (env : Env) (queue : list jsstring) (old : option FVM.t) (k : jsstring)
    : option FVM.t :=
  if decide (k ∈ queue) then
    match getAbstractFileByPath env k with
    | Some (IsFile file) =>
        match collect env file with
        | Some r => Some r
        | None => old
        end
    | _ => old
    end
  else old.

(** The shape of a record the collectors produce. *)
Definition well_formed (r : FVM.t) : Prop :=
  FVM.files r = 1 /\ FVM.notes r + FVM.attachments r = 1 /\
  0 <= FVM.notes r /\ 0 <= FVM.attachments r /\
  0 <= FVM.links r /\ 0 <= FVM.tags r /\ FVM.words r = 0 /\
  FVM.quality r = inject_Z (FVM.links r).

(** The seven summed fields of the aggregate agree with the store. *)
Definition sums_ok (c : Collector) : Prop :=
  FVM.files (vaultMetrics c) = sum_of FVM.files (data c) /\
  FVM.notes (vaultMetrics c) = sum_of FVM.notes (data c) /\
  FVM.attachments (vaultMetrics c) = sum_of FVM.attachments (data c) /\
  FVM.size (vaultMetrics c) = sum_of FVM.size (data c) /\
  FVM.links (vaultMetrics c) = sum_of FVM.links (data c) /\
  FVM.words (vaultMetrics c) = sum_of FVM.words (data c) /\
  FVM.tags (vaultMetrics c) = sum_of FVM.tags (data c).

(** What holds of a collector after any history of events, for the
    exclusion string it was built with. *)
Definition consistent (exclude : jsstring) (c : Collector) : Prop :=
  excludeDirectories c = exclude /\
  NoDup (backlog c) /\
  sums_ok c /\
  map_Forall (fun k r => well_formed r /\ excluded_by exclude k = false) (data c).

(** The paths of a list handled one after the other, as the drain does
    between two exclusion tests. *)
Definition process_all (env : Env) (l : list jsstring) (c : Collector) : Collector :=
  fold_left (fun c p => process_path env p c) l c.

(** The key [update] works on. *)
Definition update_key (fileOrPath : TFile + jsstring) : jsstring :=
  match fileOrPath with
  | inl f => path f
  | inr p => p
  end.

(** A batch with an excluded key in the middle, and the vault around it. *)
Definition mixed_env : Env :=
  mkEnv
    (fun p =>
       if decide (p = js "notes/a.md") then Some (IsFile (mkTFile p (Some (js "md")) 20))
       else if decide (p = js "pics/b.png") then Some (IsFile (mkTFile p (Some (js "png")) 30))
       else if decide (p = js "old") then Some (IsFolder p)
       else None)
    (fun _ => CacheFound no_metadata)
    (fun _ => None).

Definition mixed_batch : Collector :=
  mkCollector ∅ [js "notes/a.md"; js "archive/old.md"; js "pics/b.png"] (js "archive") FVM.zero.

Definition plain_batch : Collector :=
  mkCollector ∅ [js "notes/a.md"; js "old"; js "pics/b.png"; js "gone.md"] (js "archive") FVM.zero.

Local Close Scope Z_scope.

(** ** Notions for the patterns *)

(** A pattern that cannot match the empty string. *)
Fixpoint nonnull (r : Regex.t) : bool :=
  match r with
  | Chars _ => true
  | Seq r1 r2 => nonnull r1 || nonnull r2
  | Alt r1 r2 => nonnull r1 && nonnull r2
  | Group _ r' => nonnull r'
  | _ => false
  end.

(** Every starred or optional part of the pattern consumes something,
    which is the case of all the patterns of [text.ts]. *)
Fixpoint well_quantified (r : Regex.t) : bool :=
  match r with
  | Seq r1 r2 | Alt r1 r2 => well_quantified r1 && well_quantified r2
  | Star _ r' | Opt r' => nonnull r' && well_quantified r'
  | Group _ r' => well_quantified r'
  | _ => true
  end.

(** One or more digits. *)
Definition digits (s : jsstring) : Prop :=
  s <> [] /\ Forall (fun c => is_digit c = true) s.

(** A string without line terminators, which is what [.*?] can span. *)
Definition one_line (t : jsstring) : Prop :=
  Forall (fun c => is_line_terminator c = false) t.

(** What holds of [strip] with one of the four strip patterns. *)
Definition strip_law (pattern : Regex.t) : Prop :=
  forall t,
    (~ one_line t -> strip pattern t = []) /\
    (one_line t -> trims t (strip pattern t)) /\
    (one_line t ->
     (forall c, head t = Some c -> is_marker c = false) ->
     (forall c, last t = Some c -> is_marker c = false) ->
     strip pattern t = t).

Local Open Scope Z_scope.

(** ** Drains that are suspended and resumed

    [processBacklog] is an [async] function: it runs until
    [await this.collect(file)], is suspended there, and goes on later
    with the [update] and the next test of the loop.  While it is
    suspended the handlers may push, and the timer, which does not look
    whether a drain is under way, may start another drain. *)

(** A drain suspended at its [await]: the path it shifted and what
    [collect] makes of the file the path resolved to.  [collect] asks
    the cache and starts the read when it is called, so the record is
    that of the vault as it is then. *)
Record Pending : Type := mkPending {
  pend_path : jsstring;
  pend_metrics : option FVM.t
}.

(** The loop from its test up to the next [await] or to its end: empty
    backlog and excluded path end it, a path that is not a file goes
    round at once, a file suspends it.  No push can come in between, so
    as many rounds as the backlog is long are enough. *)
Fixpoint drain_head (env : Env) (fuel : nat) (c : Collector) : Collector * option Pending :=
  match fuel with
  | O => (c, None)
  | S fuel' =>
      match backlog c with
      | [] => (c, None)
      | p :: queue =>
          let c1 := set_backlog queue c in
          if excluded c1 p then (c1, None)
          else
            match getAbstractFileByPath env p with
            | Some (IsFile file) => (c1, Some (mkPending p (collect env file)))
            | _ => drain_head env fuel' c1
            end
      end
  end.

(** What follows the [await]: [update] unless the result is [null]. *)
Definition resume (pd : Pending) (c : Collector) : Collector :=
  match pend_metrics pd with
  | Some metrics => update (inr (pend_path pd)) (Some metrics) c
  | None => c
  end.

(** What can happen next: a handler pushes, the timer starts a drain, or
    the [i]-th suspended drain goes on (in the vault as it is then). *)
Inductive Step : Type :=
| StPush (a : TAbstractFile + jsstring)
| StTimer (env : Env)
| StResume (i : nat) (env : Env).

(** The collector together with its suspended drains. *)
Definition step (s : Collector * list Pending) (st : Step) : Collector * list Pending :=
  let (c, suspended) := s in
  match st with
  | StPush a => (push a c, suspended)
  | StTimer env =>
      let (c', o) := drain_head env (length (backlog c)) c in
      (c', suspended ++ match o with Some pd => [pd] | None => [] end)
  | StResume i env =>
      match suspended !! i with
      | None => (c, suspended)
      | Some pd =>
          let c1 := resume pd c in
          let (c2, o) := drain_head env (length (backlog c1)) c1 in
          (c2, match o with
               | Some pd' => <[i := pd']> suspended
               | None => delete i suspended
               end)
      end
  end.

Definition run_steps (steps : list Step) (s : Collector * list Pending)
    : Collector * list Pending :=
  fold_left step steps s.

(** A drain that runs alone: the timer starts it and its own resumptions
    are all that happens until it has ended. *)
Definition drain_alone (env : Env) (n : nat) (c : Collector) : Collector * list Pending :=
  run_steps (StTimer env :: replicate n (StResume O env)) (c, []).


(** A drain that runs alone in a vault with a note, a folder, a picture
    and a path that is gone; the same with an excluded path. *)
Definition alone_plain : Collector * list Pending := drain_alone mixed_env 4 plain_batch.
Definition alone_mixed : Collector * list Pending := drain_alone mixed_env 3 mixed_batch.



Local Close Scope Z_scope.

(** * Properties *)

Local Open Scope Z_scope.

(** ** The aggregate and the store *)

Section FieldSums.
Variable f : FVM.t -> Z.
Hypothesis f_zero : f FVM.zero = 0.
Hypothesis f_dec : forall a m, f (FVM.dec a m) = f a - f m.
Hypothesis f_inc : forall a m, f (FVM.inc a (Some m)) = f a + f m.

Lemma sum_of_empty : sum_of f ∅ = 0.
Proof. unfold sum_of. apply map_fold_empty. Qed.

Lemma sum_of_insert_fresh (m : gmap jsstring FVM.t) k r :
  m !! k = None -> sum_of f (<[k := r]> m) = f r + sum_of f m.
Proof.
  intros Hk. unfold sum_of.
  rewrite map_fold_insert_L; [reflexivity | | exact Hk].
  intros. lia.
Qed.

Lemma sum_of_delete (m : gmap jsstring FVM.t) k x :
  m !! k = Some x -> sum_of f m = f x + sum_of f (delete k m).
Proof.
  intros Hk. unfold sum_of.
  rewrite (map_fold_delete_L _ _ k x m); [reflexivity | | exact Hk].
  intros. lia.
Qed.

Lemma sum_of_insert (m : gmap jsstring FVM.t) k r :
  sum_of f (<[k := r]> m) = sum_of f m - f (default FVM.zero (m !! k)) + f r.
Proof.
  destruct (m !! k) as [x|] eqn:Hk; simpl.
  - rewrite <- insert_delete_eq.
    rewrite sum_of_insert_fresh by apply lookup_delete_eq.
    rewrite (sum_of_delete m k x Hk). lia.
  - rewrite sum_of_insert_fresh by exact Hk. rewrite f_zero. lia.
Qed.

Lemma update_keeps_sum k r c :
  f (vaultMetrics c) = sum_of f (data c) ->
  f (vaultMetrics (update k (Some r) c)) = sum_of f (data (update k (Some r) c)).
Proof.
  intros Hc. unfold update; cbn [vaultMetrics data].
  rewrite f_inc, f_dec, sum_of_insert, Hc. reflexivity.
Qed.

Lemma apply_all_keeps_sum ops c :
  f (vaultMetrics c) = sum_of f (data c) ->
  f (vaultMetrics (apply_all ops c)) = sum_of f (data (apply_all ops c)).
Proof.
  revert c. induction ops as [|op ops IH]; intros c Hc; simpl.
  - exact Hc.
  - apply IH. apply update_keeps_sum. exact Hc.
Qed.

Lemma fresh_sum exclude :
  f (vaultMetrics (fresh exclude)) = sum_of f (data (fresh exclude)).
Proof. simpl. rewrite sum_of_empty. exact f_zero. Qed.

End FieldSums.

(** C1.  After any sequence of [update] calls with a record, started from
    the fresh collector, each of the seven summed fields of the aggregate
    ([files], [notes], [attachments], [size], [links], [words], [tags])
    is the sum of that field over the records the store holds. *)
Theorem aggregate_is_sum_of_store (ops : list ((TFile + jsstring) * FVM.t)) (exclude : jsstring) :
  let c := apply_all ops (fresh exclude) in
  FVM.files (vaultMetrics c) = sum_of FVM.files (data c) /\
  FVM.notes (vaultMetrics c) = sum_of FVM.notes (data c) /\
  FVM.attachments (vaultMetrics c) = sum_of FVM.attachments (data c) /\
  FVM.size (vaultMetrics c) = sum_of FVM.size (data c) /\
  FVM.links (vaultMetrics c) = sum_of FVM.links (data c) /\
  FVM.words (vaultMetrics c) = sum_of FVM.words (data c) /\
  FVM.tags (vaultMetrics c) = sum_of FVM.tags (data c).
Proof.
  cbv zeta.
  repeat split; apply apply_all_keeps_sum;
    try (intros; reflexivity); apply fresh_sum; reflexivity.
Qed.

(** C3.  Calling [update] twice in a row with the same key and the same
    record leaves the aggregate (and the whole state) as the first call
    left it. *)
Theorem update_twice (k : TFile + jsstring) (r : FVM.t) (c : Collector) :
  vaultMetrics (update k (Some r) (update k (Some r) c)) = vaultMetrics (update k (Some r) c)
  /\ update k (Some r) (update k (Some r) c) = update k (Some r) c.
Proof.
  assert (H : vaultMetrics (update k (Some r) (update k (Some r) c)) = vaultMetrics (update k (Some r) c)).
  { unfold update; simpl. rewrite lookup_insert_eq. simpl.
    destruct r, (vaultMetrics c), (default FVM.zero (data c !! _)); simpl.
    unfold FVM.inc, FVM.dec; simpl.
    f_equal; try lia. f_equal; lia. }
  split; [exact H|].
  unfold update in *; simpl in *. rewrite H. f_equal.
  apply insert_insert_eq.
Qed.

(** ** The backlog *)

Lemma contains_true l p : contains l p = true <-> p ∈ l.
Proof. unfold contains. apply bool_decide_eq_true. Qed.





Lemma push_backlog a c :
  backlog (push a c) =
    match key_of a with
    | Some p => if contains (backlog c) p then backlog c else backlog c ++ [p]
    | None => backlog c
    end.
Proof.
  destruct a as [[f|p]|p]; simpl; try reflexivity;
    destruct (contains _ _); reflexivity.
Qed.

Lemma push_NoDup a c : NoDup (backlog c) -> NoDup (backlog (push a c)).
Proof.
  intros Hc. rewrite push_backlog. destruct (key_of a) as [p|]; [|exact Hc].
  destruct (contains (backlog c) p) eqn:Hp; [exact Hc|].
  apply NoDup_app. split; [exact Hc|]. split.
  - intros x Hx Hx'. apply list_elem_of_singleton in Hx'. subst x.
    apply contains_true in Hx. congruence.
  - apply NoDup_singleton.
Qed.



Lemma process_path_backlog env p c : backlog (process_path env p c) = backlog c.
Proof.
  unfold process_path.
  destruct (getAbstractFileByPath env p) as [[f|q]|]; try reflexivity.
  destruct (collect env f); reflexivity.
Qed.





(** ** Draining and collecting *)

(** An excluded head of the backlog ends the drain, whatever follows,
    and the fuel given to the loop is enough. *)

Lemma processBacklog_excluded env c p queue :
  backlog c = p :: queue -> excluded c p = true ->
  processBacklog env c = set_backlog queue c.
Proof.
  intros Hb Hex. unfold processBacklog. rewrite Hb. cbn [length processBacklog_loop].
  rewrite Hb. replace (excluded (set_backlog queue c) p) with true; reflexivity.
Qed.

Lemma processBacklog_loop_fuel env n c :
  (length (backlog c) <= n)%nat ->
  processBacklog_loop env n c = processBacklog env c.
Proof.
  unfold processBacklog. remember (length (backlog c)) as m eqn:Hm.
  revert n c Hm. induction m as [|m IH]; intros n c Hm Hle.
  - destruct (backlog c) eqn:Hb; [|discriminate].
    destruct n; simpl; [reflexivity | rewrite Hb; reflexivity].
  - destruct n as [|n]; [lia|]. cbn [processBacklog_loop].
    destruct (backlog c) as [|p queue] eqn:Hb; [discriminate|].
    destruct (excluded _ p); [reflexivity|].
    apply IH; [|lia]. rewrite process_path_backlog. simpl in *. lia.
Qed.

(** C2.  The drain at the batch [archive/old.md], [notes/a.md] with the
    excluded token [archive]: the excluded key leaves no record and the
    aggregate stays at zero, but the drain ends there; the sibling is
    still queued, without a record, and only the next drain records it. *)
Lemma drain_stops_at_excluded_key :
  backlog archive_batch = [js "archive/old.md"; js "notes/a.md"] /\
  let c := processBacklog archive_env archive_batch in
  data c = ∅ /\ vaultMetrics c = FVM.zero /\ backlog c = [js "notes/a.md"] /\
  data (processBacklog archive_env c) !! js "notes/a.md" = Some (FVM.mk 1 1 0 20 0 0 0 0).
Proof. vm_compute. repeat split. Qed.

Lemma process_path_not_found env p file c :
  getAbstractFileByPath env p = Some (IsFile file) ->
  collect env file = None ->
  process_path env p c = c.
Proof. intros Hp Hc. unfold process_path. rewrite Hp, Hc. reflexivity. Qed.

(** C8.  When [getFileCache] answers [null] or throws, [collect] returns
    [null] in both cases, and the drain step for that key leaves the
    store and the aggregate as they were. *)
Theorem missing_metadata_changes_nothing (env : Env) (p : jsstring) (file : TFile)
    (queue : list jsstring) (c : Collector) :
  getAbstractFileByPath env p = Some (IsFile file) ->
  getFileCache env file = CacheNull \/ getFileCache env file = CacheThrows ->
  backlog c = p :: queue ->
  collect env file = None /\
  data (process_path env p c) = data c /\
  vaultMetrics (process_path env p c) = vaultMetrics c /\
  data (processBacklog_loop env 1 c) = data c /\
  vaultMetrics (processBacklog_loop env 1 c) = vaultMetrics c /\
  backlog (processBacklog_loop env 1 c) = queue.
Proof.
  intros Hp Hcache Hb.
  assert (Hc : collect env file = None).
  { unfold collect. destruct Hcache as [-> | ->]; reflexivity. }
  split; [exact Hc|].
  rewrite (process_path_not_found env p file c Hp Hc).
  split; [reflexivity|]. split; [reflexivity|].
  simpl. rewrite Hb. destruct (excluded _ p); simpl.
  - repeat split.
  - rewrite (process_path_not_found env p file _ Hp Hc). repeat split.
Qed.

Lemma quality_of_note (l : Z) : (inject_Z l / inject_Z 1)%Q = inject_Z l.
Proof. unfold Qdiv, Qmult, Qinv, inject_Z; simpl. rewrite Z.mul_1_r. reflexivity. Qed.

(** C7.  With metadata at hand, a file whose extension lower-cases to [md]
    yields files 1, notes 1, attachments 0 and a quality equal to its
    link count; any other file yields files 1, notes 0, attachments 1 and
    zero links, words, tags and quality. *)
Theorem collect_by_extension (env : Env) (file : TFile) (metadata : CachedMetadata) :
  getFileCache env file = CacheFound metadata ->
  (forall e, extension file = Some e -> toLowerCase e = js "md" ->
     exists r, collect env file = Some r /\
       FVM.files r = 1 /\ FVM.notes r = 1 /\ FVM.attachments r = 0 /\
       FVM.links r = array_length (md_links metadata) /\
       FVM.quality r = (inject_Z (FVM.links r) / inject_Z (FVM.notes r))%Q /\
       FVM.quality r = inject_Z (FVM.links r)) /\
  ((extension file = None \/ exists e, extension file = Some e /\ toLowerCase e <> js "md") ->
     exists r, collect env file = Some r /\
       FVM.files r = 1 /\ FVM.notes r = 0 /\ FVM.attachments r = 1 /\
       FVM.links r = 0 /\ FVM.words r = 0 /\ FVM.tags r = 0 /\ FVM.quality r = 0%Q).
Proof.
  intros Hcache. split.
  - intros e He Hmd. unfold collect, getFileType. rewrite Hcache, He.
    destruct (decide (toLowerCase e = js "md")) as [_|Hne]; [|contradiction].
    eexists. split; [reflexivity|]. cbn [note_collect FVM.files FVM.notes FVM.attachments FVM.links FVM.quality].
    repeat split. apply quality_of_note.
  - intros Hext. unfold collect, getFileType. rewrite Hcache.
    assert (Hatt : match extension file with
                   | Some e => if decide (toLowerCase e = js "md") then Note else Attachment
                   | None => Attachment end = Attachment).
    { destruct Hext as [-> | (e & -> & Hne)]; [reflexivity|].
      destruct (decide (toLowerCase e = js "md")); [contradiction|reflexivity]. }
    rewrite Hatt. eexists. split; [reflexivity|]. repeat split.
Qed.

Lemma toLowerCase_md (e : jsstring) :
  toLowerCase e = js "md" <->
  e = js "md" \/ e = js "Md" \/ e = js "mD" \/ e = js "MD".
Proof.
  split.
  - destruct e as [|a [|b [|? ?]]]; simpl; try discriminate.
    intros H. injection H as Ha Hb.
    assert (Ha' : a = 109%N \/ a = 77%N).
    { unfold in_range in Ha. destruct ((65 <=? a)%N && (a <=? 90)%N) eqn:E; [right|left]; lia. }
    assert (Hb' : b = 100%N \/ b = 68%N).
    { unfold in_range in Hb. destruct ((65 <=? b)%N && (b <=? 90)%N) eqn:E; [right|left]; lia. }
    destruct Ha' as [-> | ->], Hb' as [-> | ->]; tauto.
  - intros [-> | [-> | [-> | ->]]]; reflexivity.
Qed.

(** ** The matcher *)


Lemma star_loop_sound body r g :
  sound_body body r ->
  forall fuel k x z,
    star_loop body g k fuel x = Some z ->
    exists y, sem (Star g r) x y /\ k y = Some z.
Proof.
  intros Hbody fuel k. induction fuel as [|fuel IH]; intros x z H; simpl in H.
  - discriminate.
  - assert (Hiter : forall z',
      body x (fun y => if (pos x <? pos y)%nat then star_loop body g k fuel y else None) = Some z' ->
      exists y, sem (Star g r) x y /\ k y = Some z').
    { intros z' Hz'. apply Hbody in Hz' as (y & Hy & Hk).
      destruct (pos x <? pos y)%nat; [|discriminate].
      apply IH in Hk as (y' & Hy' & Hk'). exists y'. split; [|exact Hk'].
      eapply sem_StarCons; eassumption. }
    destruct g.
    + destruct (body x _) as [z'|] eqn:Hb.
      * injection H as <-. apply Hiter. reflexivity.
      * exists x. split; [apply sem_StarNil | exact H].
    + destruct (k x) as [z'|] eqn:Hk.
      * injection H as <-. exists x. split; [apply sem_StarNil | exact Hk].
      * apply Hiter. exact H.
Qed.

Lemma run_sound r : sound_body (run r) r.
Proof.
  induction r as [|p|r1 IH1 r2 IH2|r1 IH1 r2 IH2|g r IH|r IH|n r IH| |];
    intros x k z H; simpl in H.
  - exists x. split; [constructor | exact H].
  - destruct (rest x) as [|c cs] eqn:Hr; [discriminate|].
    destruct (p c) eqn:Hp; [|discriminate].
    exists (advance x cs). split; [econstructor; eassumption | exact H].
  - apply IH1 in H as (y & Hy & H). apply IH2 in H as (y' & Hy' & H).
    exists y'. split; [econstructor; eassumption | exact H].
  - destruct (run r1 x k) as [z'|] eqn:H1.
    + injection H as <-. apply IH1 in H1 as (y & Hy & H).
      exists y. split; [apply sem_AltL, Hy | exact H].
    + apply IH2 in H as (y & Hy & H).
      exists y. split; [apply sem_AltR, Hy | exact H].
  - exact (star_loop_sound (run r) r g IH (S (length (rest x))) k x z H).
  - destruct (run r x _) as [z'|] eqn:H1.
    + injection H as <-. apply IH in H1 as (y & Hy & H).
      destruct (pos x <? pos y)%nat; [|discriminate].
      exists y. split; [apply sem_OptSome, Hy | exact H].
    + exists x. split; [apply sem_OptNone | exact H].
  - apply IH in H as (y & Hy & H).
    exists (set_cap n (captured x y) y). split; [apply sem_Group, Hy | exact H].
  - destruct (pos x =? 0)%nat eqn:Hp; [|discriminate].
    exists x. split; [apply sem_Bol; apply Nat.eqb_eq, Hp | exact H].
  - destruct (rest x) eqn:Hr; [|discriminate].
    exists x. split; [apply sem_Eol, Hr | exact H].
Qed.

Lemma sem_consumes r x y :
  sem r x y ->
  exists w, rest x = w ++ rest y /\ pos y = (pos x + length w)%nat /\
            forall M, within M r -> Forall (fun c => M c = true) w.
Proof.
  induction 1 as [x|p x c cs Hr Hp|r1 r2 x y z _ IH1 _ IH2|r1 r2 x y _ IH|r1 r2 x y _ IH
                 |g r x|g r x y z _ IH1 _ IH2|r x|r x y _ IH|n r x y _ IH|x Hp|x Hr].
  - exists []. simpl. split; [reflexivity|]. split; [lia|]. intros; constructor.
  - exists [c]. simpl. split; [exact Hr|]. split; [lia|].
    intros M HM. constructor; [apply HM, Hp | constructor].
  - destruct IH1 as (w1 & E1 & P1 & F1), IH2 as (w2 & E2 & P2 & F2).
    exists (w1 ++ w2). rewrite <- app_assoc, <- E2. split; [exact E1|].
    split; [rewrite length_app; lia|].
    intros M [H1 H2]. apply Forall_app. split; [apply F1, H1 | apply F2, H2].
  - destruct IH as (w & E & P & F). exists w. split; [exact E|]. split; [exact P|].
    intros M [H1 _]. apply F, H1.
  - destruct IH as (w & E & P & F). exists w. split; [exact E|]. split; [exact P|].
    intros M [_ H2]. apply F, H2.
  - exists []. simpl. split; [reflexivity|]. split; [lia|]. intros; constructor.
  - destruct IH1 as (w1 & E1 & P1 & F1), IH2 as (w2 & E2 & P2 & F2).
    exists (w1 ++ w2). rewrite <- app_assoc, <- E2. split; [exact E1|].
    split; [rewrite length_app; lia|].
    intros M HM. apply Forall_app. split; [apply F1, HM | apply F2, HM].
  - exists []. simpl. split; [reflexivity|]. split; [lia|]. intros; constructor.
  - destruct IH as (w & E & P & F). exists w. split; [exact E|]. split; [exact P|].
    intros M HM. apply F, HM.
  - destruct IH as (w & E & P & F). exists w. split; [exact E|]. split; [exact P|].
    intros M HM. apply F, HM.
  - exists []. simpl. split; [reflexivity|]. split; [lia|]. intros; constructor.
  - exists []. simpl. split; [reflexivity|]. split; [lia|]. intros; constructor.
Qed.

Lemma sem_caps r x y :
  sem r x y ->
  length (caps y) = length (caps x) /\
  forall n, n ∉ groups r -> caps y !! n = caps x !! n.
Proof.
  induction 1 as [x|p x c cs Hr Hp|r1 r2 x y z _ IH1 _ IH2|r1 r2 x y _ IH|r1 r2 x y _ IH
                 |g r x|g r x y z _ IH1 _ IH2|r x|r x y _ IH|n r x y _ IH|x Hp|x Hr];
    simpl; try (split; [reflexivity | intros; reflexivity]).
  - destruct IH1 as [L1 C1], IH2 as [L2 C2]. split; [congruence|].
    intros n Hn. rewrite C2, C1; [reflexivity| |]; intros Hin; apply Hn, elem_of_app; tauto.
  - destruct IH as [L C]. split; [exact L|].
    intros n Hn. apply C. intros Hin; apply Hn, elem_of_app; tauto.
  - destruct IH as [L C]. split; [exact L|].
    intros n Hn. apply C. intros Hin; apply Hn, elem_of_app; tauto.
  - destruct IH1 as [L1 C1], IH2 as [L2 C2]. simpl in *. split; [congruence|].
    intros n Hn. rewrite C2, C1; [reflexivity|exact Hn|exact Hn].
  - exact IH.
  - destruct IH as [L C]. rewrite length_insert. split; [exact L|].
    intros m Hm. rewrite list_lookup_insert_ne.
    + apply C. intros Hin. apply Hm. right. exact Hin.
    + intros ->. apply Hm. left.
Qed.

Lemma captured_app x y w :
  rest x = w ++ rest y -> pos y = (pos x + length w)%nat -> captured x y = w.
Proof.
  intros E P. unfold captured. rewrite E, P.
  replace (pos x + length w - pos x)%nat with (length w) by lia.
  apply take_app_length.
Qed.

(** The fuel of a starred loop is never what makes it fail: any amount
    above the length of the input left gives the same result. *)

Lemma extends_refl x : extends x x.
Proof. exists []. split; [reflexivity | simpl; lia]. Qed.

Lemma extends_trans x y z : extends x y -> extends y z -> extends x z.
Proof.
  intros (w1 & E1 & P1) (w2 & E2 & P2). exists (w1 ++ w2).
  rewrite <- app_assoc, <- E2, length_app. split; [exact E1 | lia].
Qed.

Lemma extends_shorter x y :
  extends x y -> (pos x < pos y)%nat -> (length (rest y) < length (rest x))%nat.
Proof. intros (w & E & P) Hlt. rewrite E, length_app. lia. Qed.

Lemma star_loop_local body g :
  cont_local body -> forall fuel, cont_local (fun x k => star_loop body g k fuel x).
Proof.
  intros Hbody fuel. induction fuel as [|fuel IH]; intros x k k' Hk; [reflexivity|].
  cbn [star_loop].
  rewrite (Hbody x _ (fun y => if (pos x <? pos y)%nat then star_loop body g k' fuel y else None)).
  - rewrite (Hk x (extends_refl x)). reflexivity.
  - intros y Hy. destruct (pos x <? pos y)%nat; [|reflexivity].
    apply IH. intros z Hz. apply Hk. eapply extends_trans; eassumption.
Qed.

Lemma run_local r : cont_local (run r).
Proof.
  induction r as [|p|r1 IH1 r2 IH2|r1 IH1 r2 IH2|g r IH|r IH|n r IH| |];
    intros x k k' Hk; cbn [run].
  - apply Hk, extends_refl.
  - destruct (rest x) as [|c cs] eqn:Hr; [reflexivity|].
    destruct (p c); [|reflexivity]. apply Hk. exists [c]. simpl. split; [exact Hr | lia].
  - apply IH1. intros y Hy. apply IH2. intros z Hz. apply Hk.
    eapply extends_trans; eassumption.
  - rewrite (IH1 x k k' Hk), (IH2 x k k' Hk). reflexivity.
  - apply (star_loop_local (run r) g IH). exact Hk.
  - rewrite (IH x _ (fun y => if (pos x <? pos y)%nat then k' y else None)).
    + rewrite (Hk x (extends_refl x)). reflexivity.
    + intros y Hy. destruct (pos x <? pos y)%nat; [apply Hk, Hy | reflexivity].
  - apply IH. intros y Hy. apply Hk. destruct Hy as (w & E & P). exists w. split; assumption.
  - destruct (pos x =? 0)%nat; [apply Hk, extends_refl | reflexivity].
  - destruct (rest x); [apply Hk, extends_refl | reflexivity].
Qed.

Lemma star_loop_fuel r g k f1 f2 x :
  (length (rest x) < f1)%nat -> (length (rest x) < f2)%nat ->
  star_loop (run r) g k f1 x = star_loop (run r) g k f2 x.
Proof.
  revert f2 x. induction f1 as [|f1 IH]; intros f2 x H1 H2; [lia|].
  destruct f2 as [|f2]; [lia|]. cbn [star_loop].
  rewrite (run_local r x _
             (fun y => if (pos x <? pos y)%nat then star_loop (run r) g k f2 y else None)).
  - reflexivity.
  - intros y Hy. destruct (pos x <? pos y)%nat eqn:Hlt; [|reflexivity].
    apply Nat.ltb_lt in Hlt. pose proof (extends_shorter x y Hy Hlt).
    apply IH; lia.
Qed.

(** ** The strip patterns *)

Lemma exec_from_anchored r s q :
  (0 < q)%nat -> exec_from (Bol -:- r) q s = None.
Proof.
  revert q. induction s as [|c s IH]; intros q Hq; simpl.
  - destruct q; [lia | reflexivity].
  - destruct q; [lia|]. simpl. apply IH. lia.
Qed.

Lemma exec_anchored r s m :
  exec (Bol -:- r) s = Some m ->
  exists y, let x := start_state (Bol -:- r) O s in
    sem r x y /\ m = <[O := Some (captured x y)]> (caps y).
Proof.
  unfold exec. intros H.
  assert (Hrun : exists y, run (Bol -:- r) (start_state (Bol -:- r) O s) Some = Some y /\
                   m = <[O := Some (captured (start_state (Bol -:- r) O s) y)]> (caps y)).
  { destruct s as [|c s]; cbn [exec_from] in H.
    - destruct (run (Bol -:- r) _ Some) as [y|]; [|discriminate].
      injection H as <-. exists y. split; reflexivity.
    - destruct (run (Bol -:- r) _ Some) as [y|].
      + injection H as <-. exists y. split; reflexivity.
      + rewrite exec_from_anchored in H by lia. discriminate. }
  destruct Hrun as (y & Hy & ->). exists y. cbv zeta.
  apply run_sound in Hy as (y' & Hsem & Hy'). injection Hy' as ->.
  inversion Hsem as [| |r1 r2 x1 y1 z1 HB Hr| | | | | | | | |]; subst.
  inversion HB; subst. split; [exact Hr | reflexivity].
Qed.

Lemma strip_shape A B t :
  groups B = [] -> within is_marker A -> within is_marker B ->
  stripped_from t
    (strip (Bol -:- Opt (Group 1 A) -:- Group 2 (Star false Dot) -:- Opt (Group 3 B) -:- Eol) t).
Proof.
  intros GB WA WB. unfold strip.
  destruct (exec _ t) as [m|] eqn:Hexec; [|left; reflexivity].
  destruct (3 <=? length m)%nat eqn:Hlen; [|left; reflexivity].
  apply exec_anchored in Hexec as (y & Hsem & ->). cbv zeta in *.
  set (x0 := start_state _ O t) in *.
  inversion Hsem as [| |? ? ? x1 ? H1 Hsem1| | | | | | | | |]; subst; clear Hsem.
  inversion Hsem1 as [| |? ? ? x2 ? H2 Hsem2| | | | | | | | |]; subst; clear Hsem1.
  inversion Hsem2 as [| |? ? ? x3 ? H3 H4| | | | | | | | |]; subst; clear Hsem2.
  inversion H4; subst; clear H4.
  destruct (sem_consumes _ _ _ H1) as (a & Ea & Pa & Fa).
  destruct (sem_consumes _ _ _ H2) as (v & Ev & Pv & _).
  destruct (sem_consumes _ _ _ H3) as (b & Eb & Pb & Fb).
  destruct (sem_caps _ _ _ H1) as [L1 _].
  destruct (sem_caps _ _ _ H3) as [_ C3].
  assert (Hcap : caps x2 !! 2%nat = Some (Some v)).
  { inversion H2 as [| | | | | | | | |? ? ? x2' Hs| |]; subst.
    destruct (sem_caps _ _ _ Hs) as [L2 _].
    cbn [set_cap caps]. rewrite list_lookup_insert_eq.
    - f_equal. f_equal. apply captured_app; [exact Ev | exact Pv].
    - rewrite L2, L1. subst x0. cbn [start_state caps]. rewrite length_replicate.
      cbn [ngroups]. lia. }
  rewrite list_lookup_insert_ne by lia.
  rewrite C3.
  2:{ cbn [groups]. rewrite GB. intros Hin. apply list_elem_of_singleton in Hin. lia. }
  rewrite Hcap. right. exists a, b. split.
  - change t with (rest x0). rewrite Ea, Ev, Eb.
    match goal with H : rest y = [] |- _ => rewrite H end.
    rewrite app_nil_r. reflexivity.
  - split; [apply Fa, WA | apply Fb, WB].
Qed.

Ltac marker_class :=
  unfold emphasis, punctuation, DQuote, Plus; cbn [within Lit]; unfold Chr;
  cbn [within]; repeat split; intros c Hc; apply N.eqb_eq in Hc; subst c; reflexivity.

Lemma stripHighlights_shape t : stripped_from t (strip STRIP_HIGHLIGHTS t).
Proof. apply strip_shape; [reflexivity | marker_class | marker_class]. Qed.

Lemma stripFormatting_shape t : stripped_from t (strip STRIP_FORMATTING t).
Proof. apply strip_shape; [reflexivity | marker_class | marker_class]. Qed.

Lemma stripPunctuation_shape t : stripped_from t (strip STRIP_PUNCTUATION t).
Proof. apply strip_shape; [reflexivity | marker_class | marker_class]. Qed.

Lemma stripWikiLinks_shape t : stripped_from t (strip STRIP_WIKI_LINKS t).
Proof. apply strip_shape; [reflexivity | marker_class | marker_class]. Qed.

(** ** The fixed-point loop *)

Lemma trims_length t v : trims t v -> (length v <= length t)%nat /\ (length v = length t -> v = t).
Proof.
  intros (a & b & -> & _ & _). rewrite !length_app. split; [lia|].
  intros H. destruct a; [|simpl in H; lia]. destruct b; [|simpl in H; lia].
  simpl. rewrite app_nil_r. reflexivity.
Qed.

Lemma stripped_from_length t v :
  stripped_from t v -> (length v <= length t)%nat /\ (length v = length t -> v = t).
Proof.
  intros [-> | H]; [|apply trims_length, H].
  simpl. split; [lia|]. intros H. destruct t; [reflexivity | discriminate].
Qed.

Lemma trims_refl t : trims t t.
Proof. exists [], []. rewrite app_nil_r. repeat split; constructor. Qed.

Lemma trims_trans t u v : trims t u -> trims u v -> trims t v.
Proof.
  intros (a & b & -> & Fa & Fb) (a' & b' & -> & Fa' & Fb').
  exists (a ++ a'), (b' ++ b). split.
  - rewrite <- !app_assoc. reflexivity.
  - split; apply Forall_app; split; assumption.
Qed.

Lemma stripped_from_refl t : stripped_from t t.
Proof. right. apply trims_refl. Qed.

Lemma stripped_from_trans t u v : stripped_from t u -> stripped_from u v -> stripped_from t v.
Proof.
  intros Htu [-> | Huv]; [left; reflexivity|].
  destruct Htu as [-> | Htu].
  - destruct (trims_length _ _ Huv) as [Hle _]. simpl in Hle.
    left. destruct v; [reflexivity | simpl in Hle; lia].
  - right. eapply trims_trans; eassumption.
Qed.

Lemma strip_pass_shape cb t t' : strip_pass cb t = Ok t' -> stripped_from t t'.
Proof.
  destruct cb; [discriminate|]. unfold strip_pass; simpl. intros H. injection H as <-.
  eapply stripped_from_trans; [|apply stripWikiLinks_shape].
  eapply stripped_from_trans; [|apply stripPunctuation_shape].
  eapply stripped_from_trans; [|apply stripFormatting_shape].
  apply stripHighlights_shape.
Qed.

Lemma strip_pass_throws cb t e : strip_pass cb t = Throw e -> cb = this_undefined /\ e = TypeError.
Proof. destruct cb; simpl; [intros H; injection H as <-; split; reflexivity | discriminate]. Qed.

Lemma strip_pass_shrinks (cb : This) (t t' : jsstring) :
  strip_pass cb t = Ok t' -> t' = t \/ (length t' < length t)%nat.
Proof.
  intros H. apply strip_pass_shape, stripped_from_length in H as [Hle Heq].
  destruct (decide (length t' = length t)) as [E|E]; [left; apply Heq, E | right; lia].
Qed.

Lemma stripAll_loop_ends cb fuel t :
  (length t < fuel)%nat ->
  exists n r, stripAll_loop cb fuel t = Some (n, r) /\ (1 <= n <= S (length t))%nat /\
    match r with
    | Ok v => strip_pass cb v = Ok v /\ stripped_from t v
    | Throw e => cb = this_undefined /\ e = TypeError
    end.
Proof.
  revert t. induction fuel as [|fuel IH]; intros t Hf; [lia|].
  cbn [stripAll_loop]. destruct (strip_pass cb t) as [t'|e] eqn:Hp.
  - destruct (decide (t = t')) as [<-|Hne].
    + exists 1%nat, (Ok t). split; [reflexivity|]. split; [lia|].
      split; [exact Hp | apply stripped_from_refl].
    + destruct (strip_pass_shrinks _ _ _ Hp) as [->|Hlt]; [congruence|].
      destruct (IH t' ltac:(lia)) as (n & r & -> & Hn & Hr).
      exists (S n), r. split; [reflexivity|]. split; [lia|].
      destruct r as [v|e]; [|exact Hr]. destruct Hr as [Hfix Hv].
      split; [exact Hfix|]. eapply stripped_from_trans; [|exact Hv].
      eapply strip_pass_shape, Hp.
  - exists 1%nat, (Throw e). split; [reflexivity|]. split; [lia|].
    eapply strip_pass_throws, Hp.
Qed.

Lemma stripAll_loop_fuel cb f1 f2 t :
  (length t < f1)%nat -> (length t < f2)%nat ->
  stripAll_loop cb f1 t = stripAll_loop cb f2 t.
Proof.
  revert f2 t. induction f1 as [|f1 IH]; intros f2 t H1 H2; [lia|].
  destruct f2 as [|f2]; [lia|]. cbn [stripAll_loop].
  destruct (strip_pass cb t) as [t'|e] eqn:Hp; [|reflexivity].
  destruct (decide (t = t')) as [_|Hne]; [reflexivity|].
  destruct (strip_pass_shrinks _ _ _ Hp) as [->|Hlt]; [congruence|].
  rewrite (IH f2 t') by lia. reflexivity.
Qed.

(** C9.  Whatever the receiver of the strip callbacks, a completed pass
    returns the token unchanged or a strictly shorter one, the loop of
    [stripAll] ends within length + 1 passes (on a fixed point of the
    pass, or on the exception of a pass), more fuel changes nothing, and
    the fuel is never used up. *)
Theorem stripAll_terminates (cb : This) (token : jsstring) :
  (forall t t', strip_pass cb t = Ok t' -> t' = t \/ (length t' < length t)%nat) /\
  (exists n r, stripAll_loop cb (S (length token)) token = Some (n, r) /\
     (n <= S (length token))%nat /\
     forall v, r = Ok v -> strip_pass cb v = Ok v) /\
  (forall fuel, (length token < fuel)%nat ->
     stripAll_loop cb fuel token = stripAll_loop cb (S (length token)) token) /\
  stripAll_with cb token <> Throw Unfinished.
Proof.
  split; [apply strip_pass_shrinks|].
  destruct (stripAll_loop_ends cb (S (length token)) token ltac:(lia)) as (n & r & E & Hn & Hr).
  split; [|split].
  - exists n, r. split; [exact E|]. split; [lia|]. intros v ->. apply Hr.
  - intros fuel Hf. apply stripAll_loop_fuel; lia.
  - unfold stripAll_with. destruct (decide (token = [])); [discriminate|].
    rewrite E. destruct r as [v|e]; [discriminate|]. destruct Hr as [_ ->]. discriminate.
Qed.

(** ** Candidates and tokens *)

Lemma star_loop_greedy_S body k fuel x :
  star_loop body true k (S fuel) x =
    match body x (fun y => if (pos x <? pos y)%nat then star_loop body true k fuel y else None) with
    | Some z => Some z
    | None => k x
    end.
Proof. reflexivity. Qed.

Lemma run_Chars_cons p q c s cs k :
  run (Chars p) (mkState q (c :: s) cs) k = if p c then k (mkState (S q) s cs) else None.
Proof. reflexivity. Qed.

Lemma star_chars_to_end p s : forall q cs fuel,
  (length s < fuel)%nat -> Forall (fun c => p c = true) s ->
  star_loop (run (Chars p)) true (fun y => run Eol y Some) fuel (mkState q s cs)
  = Some (mkState (q + length s) [] cs).
Proof.
  induction s as [|c s IH]; intros q cs fuel Hf Hs; (destruct fuel as [|fuel]; [simpl in Hf; lia|]).
  - simpl. do 2 f_equal. lia.
  - inversion Hs as [|? ? Hc Hs']; subst.
    rewrite star_loop_greedy_S, run_Chars_cons, Hc. cbn [pos].
    replace (q <? S q)%nat with true by (symmetry; apply Nat.ltb_lt; lia).
    cbn [length] in Hf. rewrite IH; [|lia|exact Hs'].
    cbn [length]. do 2 f_equal. lia.
Qed.

Lemma isNonWord_complete s :
  s <> [] -> Forall (fun c => word_char c = false) s -> isNonWord s = true.
Proof.
  intros Hne Hs. destruct s as [|c s]; [contradiction|].
  inversion Hs as [|? ? Hc Hs']; subst.
  unfold isNonWord. apply bool_decide_eq_true.
  assert (Hrun : run NON_WORDS (start_state NON_WORDS O (c :: s)) Some
                 = Some (mkState (1 + length s) [] (replicate 1 None))).
  { unfold NON_WORDS, Plus, start_state.
    change (run (Bol -:- (?a -:- ?b) -:- Eol) ?x Some)
      with (run a x (fun y => run b y (fun z => run Eol z Some))).
    rewrite run_Chars_cons, Hc. cbn [negb].
    change (run (Star true ?r) ?x ?k) with (star_loop (run r) true k (S (length (rest x))) x).
    apply (star_chars_to_end (fun c => negb (word_char c))).
    - simpl. lia.
    - eapply Forall_impl; [exact Hs'|]. intros x Hx. simpl. rewrite Hx. reflexivity. }
  unfold exec. cbn [exec_from]. rewrite Hrun. eexists. reflexivity.
Qed.

Lemma existsb_false_Forall (p : N -> bool) l :
  existsb p l = false -> Forall (fun c => p c = false) l.
Proof.
  induction l as [|c l IH]; simpl; intros H; [constructor|].
  apply orb_false_iff in H as [Hc Hl]. constructor; [exact Hc | apply IH, Hl].
Qed.

Lemma candidate_has_word_char s :
  isNonWord s = false -> s = [] \/ existsb word_char s = true.
Proof.
  intros H. destruct s as [|c s]; [left; reflexivity|]. right.
  destruct (existsb word_char (c :: s)) eqn:E; [reflexivity|].
  rewrite isNonWord_complete in H; [discriminate|discriminate|].
  apply existsb_false_Forall, E.
Qed.

Lemma map_exc_elem {A B : Type} (f : A -> Exc B) l l' b :
  map_exc f l = Ok l' -> b ∈ l' -> exists a, a ∈ l /\ f a = Ok b.
Proof.
  revert l'. induction l as [|a l IH]; intros l' H Hb; simpl in H.
  - injection H as <-. inversion Hb.
  - destruct (f a) as [b0|] eqn:Ha; [|discriminate]. simpl in H.
    destruct (map_exc f l) as [bs|] eqn:Hl; [|discriminate]. simpl in H.
    injection H as <-. apply elem_of_cons in Hb as [->|Hb].
    + exists a. split; [left | exact Ha].
    + destruct (IH bs eq_refl Hb) as (a' & Ha' & Hf). exists a'. split; [right; exact Ha' | exact Hf].
Qed.

Lemma stripAll_with_shape cb t v : stripAll_with cb t = Ok v -> stripped_from t v.
Proof.
  unfold stripAll_with. destruct (decide (t = [])) as [->|Hne].
  - intros H; injection H as <-. left; reflexivity.
  - destruct (stripAll_loop_ends cb (S (length t)) t ltac:(lia)) as (n & r & -> & _ & Hr).
    intros ->. apply Hr.
Qed.

Lemma marker_not_alnum c : word_char c = true -> c <> 95%N -> is_marker c = false.
Proof.
  intros Hw Hne. destruct (is_marker c) eqn:E; [|reflexivity].
  apply bool_decide_eq_true in E.
  repeat (apply elem_of_cons in E as [-> | E]);
    first [ inversion E; fail
          | vm_compute in Hw; discriminate
          | exfalso; apply Hne; reflexivity ].
Qed.

(** Whatever the receiver of the strip callbacks: a token that
    [tokenize] returns is non-empty and is a split candidate holding a
    word character, with only markers taken off its two ends; every
    letter and digit of the candidate is kept.  (As [stripAll] is
    written no token is ever returned, see
    [markdown_tokenize_returns_nothing].) *)
Theorem tokens_come_from_word_candidates (cb : This) (content : jsstring) (tokens : list jsstring) :
  tokenize_with cb content = Ok tokens ->
  forall t, t ∈ tokens ->
    t <> [] /\
    exists candidate,
      candidate ∈ Regex.split WORD_BOUNDARY content /\
      existsb word_char candidate = true /\
      trims candidate t /\
      (forall c, c ∈ candidate -> word_char c = true -> c <> 95%N -> c ∈ t).
Proof.
  unfold tokenize_with. destruct (decide (trim content = [])) as [_|_].
  - intros H; injection H as <-. intros t Ht. inversion Ht.
  - destruct (map_exc _ _) as [stripped|] eqn:Hmap; [|discriminate].
    simpl. intros H; injection H as <-. intros t Ht.
    apply list_elem_of_filter in Ht as [Hlen Ht].
    assert (Hne : t <> []) by (intros ->; simpl in Hlen; lia).
    split; [exact Hne|].
    destruct (map_exc_elem _ _ _ _ Hmap Ht) as (cand & Hcand & Hstrip).
    apply list_elem_of_filter in Hcand as [_ Hcand].
    apply list_elem_of_filter in Hcand as [_ Hcand].
    apply list_elem_of_filter in Hcand as [Hnw Hcand].
    apply stripAll_with_shape in Hstrip as [->|Htrim]; [contradiction|].
    exists cand. split; [exact Hcand|].
    destruct (candidate_has_word_char _ Hnw) as [->|Hw].
    { destruct (trims_length _ _ Htrim) as [Hle _]. destruct t; [contradiction|simpl in Hle; lia]. }
    split; [exact Hw|]. split; [exact Htrim|].
    intros c Hc Hwc H95. destruct Htrim as (a & b & -> & Fa & Fb).
    pose proof (marker_not_alnum c Hwc H95) as Hm.
    apply elem_of_app in Hc as [Hc|Hc].
    + rewrite Forall_forall in Fa. apply Fa in Hc. congruence.
    + apply elem_of_app in Hc as [Hc|Hc]; [exact Hc|].
      rewrite Forall_forall in Fb. apply Fb in Hc. congruence.
Qed.

(** ** The tokenizer as written *)

Lemma stripAll_as_written (token : jsstring) :
  token <> [] -> stripAll token = Throw TypeError.
Proof.
  intros Hne. unfold stripAll, stripAll_with.
  destruct (decide (token = [])); [contradiction|]. reflexivity.
Qed.

Lemma stripAll_with_undefined token v :
  stripAll_with this_undefined token = Ok v -> token = [] /\ v = [].
Proof.
  unfold stripAll_with. destruct (decide (token = [])) as [->|_].
  - intros H; injection H as <-. split; reflexivity.
  - discriminate.
Qed.

Lemma markdown_tokenize_returns_nothing (content : jsstring) (tokens : list jsstring) :
  markdown_tokenize content = Ok tokens -> tokens = [].
Proof.
  unfold markdown_tokenize. intros H.
  destruct tokens as [|t tokens]; [reflexivity|]. exfalso.
  assert (Ht : t ∈ t :: tokens) by left.
  revert H Ht. generalize (t :: tokens) as l. intros l H Ht.
  unfold tokenize_with in H. destruct (decide (trim content = [])).
  - injection H as <-. inversion Ht.
  - destruct (map_exc _ _) as [stripped|] eqn:Hmap; [|discriminate].
    simpl in H. injection H as <-.
    apply list_elem_of_filter in Ht as [Hlen Ht].
    destruct (map_exc_elem _ _ _ _ Hmap Ht) as (cand & _ & Hs).
    apply stripAll_with_undefined in Hs as [_ ->]. simpl in Hlen. lia.
Qed.

(** C5.  [tokenize] at the two wrapped words: as written the first strip
    callback runs with [this] undefined and the call throws; with the
    callbacks run on the tokenizer the results are [word] (after three
    passes, the first of which leaves [_word_]) and [x]. *)
Lemma tokenize_wrapped_word :
  markdown_tokenize (js "**_word_**") = Throw TypeError /\
  markdown_tokenize (js "==x==") = Throw TypeError /\
  tokenize_with this_tokenizer (js "**_word_**") = Ok [js "word"] /\
  tokenize_with this_tokenizer (js "==x==") = Ok [js "x"] /\
  strip_pass this_tokenizer (js "**_word_**") = Ok (js "_word_") /\
  stripAll_loop this_tokenizer 11 (js "**_word_**") = Some (3%nat, Ok (js "word")).
Proof. vm_compute. repeat split. Qed.

(** C6.  [tokenize] at [3.14 is pi.]: the number is filtered out before
    any strip, but as written the strip of [is] throws; with the
    callbacks run on the tokenizer the result is [is], [pi]. *)
Lemma tokenize_number_and_period :
  markdown_tokenize (js "3.14 is pi.") = Throw TypeError /\
  Regex.split WORD_BOUNDARY (js "3.14 is pi.") = [js "3.14"; js "is"; js "pi."] /\
  isNumber (js "3.14") = true /\
  tokenize_with this_tokenizer (js "3.14 is pi.") = Ok [js "is"; js "pi"].
Proof. vm_compute. repeat split. Qed.

(** The underscore is a word character and also an emphasis marker:
    [stripFormatting], called on the tokenizer, removes it, and with the
    strips run that way the candidate [_-_] would become the token [-],
    which holds no word character. *)
Lemma underscore_is_stripped :
  word_char 95 = true /\
  stripFormatting this_tokenizer (js "_-_") = Ok (js "-") /\
  tokenize_with this_tokenizer (js "_-_") = Ok [js "-"] /\
  existsb word_char (js "-") = false /\
  ~ (forall cb content tokens t,
       tokenize_with cb content = Ok tokens -> t ∈ tokens ->
       existsb word_char t = true).
Proof.
  assert (Htok : tokenize_with this_tokenizer (js "_-_") = Ok [js "-"])
    by (vm_compute; reflexivity).
  repeat split; try (vm_compute; reflexivity).
  intros Hall.
  specialize (Hall this_tokenizer (js "_-_") [js "-"] (js "-") Htok ltac:(left)).
  vm_compute in Hall. discriminate.
Qed.

(** ** Instances *)

(** A note [A.MD] with five links and a picture. *)
Lemma collect_by_extension_witness :
  (exists r, collect links_env upper_case_note = Some r /\
     FVM.files r = 1 /\ FVM.notes r = 1 /\ FVM.attachments r = 0 /\
     FVM.links r = 5 /\ FVM.quality r = inject_Z 5) /\
  (exists r, collect links_env picture = Some r /\
     FVM.files r = 1 /\ FVM.notes r = 0 /\ FVM.attachments r = 1 /\
     FVM.links r = 0 /\ FVM.words r = 0 /\ FVM.tags r = 0 /\ FVM.quality r = 0%Q).
Proof.
  split.
  - destruct (collect_by_extension links_env upper_case_note five_links eq_refl) as [Hnote _].
    destruct (Hnote (js "MD") eq_refl eq_refl) as (r & Hr & Hf & Hn & Ha & Hl & _ & Hq).
    exists r. rewrite Hq, Hl. repeat split; assumption.
  - destruct (collect_by_extension links_env picture five_links eq_refl) as [_ Hfile].
    apply Hfile. right. exists (js "png"). split; [reflexivity | discriminate].
Defined.

(** A stale record for a file whose metadata is gone stays as it is. *)
Lemma missing_metadata_changes_nothing_witness :
  data stale_state !! js "notes/gone.md" = Some stale_record /\
  (collect (gone_env CacheThrows) gone = None /\
   data (process_path (gone_env CacheThrows) (js "notes/gone.md") stale_state) = data stale_state /\
   vaultMetrics (process_path (gone_env CacheThrows) (js "notes/gone.md") stale_state)
     = vaultMetrics stale_state /\
   data (processBacklog_loop (gone_env CacheThrows) 1 stale_state) = data stale_state /\
   vaultMetrics (processBacklog_loop (gone_env CacheThrows) 1 stale_state)
     = vaultMetrics stale_state /\
   backlog (processBacklog_loop (gone_env CacheThrows) 1 stale_state) = []) /\
  collect (gone_env CacheNull) gone = None.
Proof.
  split; [vm_compute; reflexivity|]. split.
  - apply (missing_metadata_changes_nothing (gone_env CacheThrows) (js "notes/gone.md") gone []
             stale_state); [reflexivity | right; reflexivity | reflexivity].
  - apply (missing_metadata_changes_nothing (gone_env CacheNull) (js "notes/gone.md") gone []
             stale_state); [reflexivity | left; reflexivity | reflexivity].
Defined.

(** The tokens of [say _hi_!]. *)
Lemma tokens_come_from_word_candidates_witness :
  tokenize_with this_tokenizer (js "say _hi_!") = Ok [js "say"; js "hi"] /\
  (js "hi" <> [] /\
   exists candidate,
     candidate ∈ Regex.split WORD_BOUNDARY (js "say _hi_!") /\
     existsb word_char candidate = true /\
     trims candidate (js "hi") /\
     (forall c, c ∈ candidate -> word_char c = true -> c <> 95%N -> c ∈ js "hi")).
Proof.
  split; [vm_compute; reflexivity|].
  apply (tokens_come_from_word_candidates this_tokenizer (js "say _hi_!") [js "say"; js "hi"]).
  - vm_compute; reflexivity.
  - right. left.
Defined.

(** The three passes over a doubly wrapped word. *)
Lemma stripAll_terminates_witness :
  (js "_word_" = js "**_word_**" \/ (length (js "_word_") < length (js "**_word_**"))%nat) /\
  stripAll_loop this_tokenizer 40 (js "**_word_**")
    = stripAll_loop this_tokenizer (S (length (js "**_word_**"))) (js "**_word_**") /\
  stripAll_loop this_tokenizer 40 (js "**_word_**") = Some (3%nat, Ok (js "word")).
Proof.
  destruct (stripAll_terminates this_tokenizer (js "**_word_**")) as (Hpass & _ & Hfuel & _).
  split; [|split].
  - apply (Hpass (js "**_word_**") (js "_word_")). vm_compute; reflexivity.
  - apply Hfuel. simpl. lia.
  - vm_compute; reflexivity.
Defined.

(** * Further properties *)

(** ** The collector *)

(** *** Records produced by [collect] *)

Lemma fold_add_zero (l : list Z) : Forall (fun n => n = 0) l -> fold_left Z.add l 0 = 0.
Proof.
  induction 1 as [|n l -> _ IH]; [reflexivity | exact IH].
Qed.

Lemma map_exc_Forall {A B : Type} (f : A -> Exc B) (P : B -> Prop) l l' :
  (forall a b, f a = Ok b -> P b) -> map_exc f l = Ok l' -> Forall P l'.
Proof.
  intros Hf. revert l'. induction l as [|a l IH]; intros l' H; simpl in H.
  - injection H as <-. constructor.
  - destruct (f a) as [b|] eqn:Ha; [|discriminate]. simpl in H.
    destruct (map_exc f l) as [bs|]; [|discriminate]. simpl in H.
    injection H as <-. constructor; [eapply Hf, Ha | apply IH; reflexivity].
Qed.

Lemma tokenize_no_token t content tokens : tokenize t content = Ok tokens -> tokens = [].
Proof.
  destruct t; simpl.
  - intros H; injection H as <-; reflexivity.
  - apply markdown_tokenize_returns_nothing.
Qed.

Lemma count_words_zero content metadata n :
  count_words content metadata = Ok (Some n) -> n = 0.
Proof.
  unfold count_words. destruct (md_sections metadata) as [sections|]; [|discriminate].
  destruct (map_exc _ sections) as [counts|] eqn:Hmap; [|discriminate].
  simpl. intros H; injection H as <-. apply fold_add_zero.
  eapply map_exc_Forall; [|exact Hmap].
  intros section b. cbv beta.
  destruct (TOKENIZERS !! sec_type section) as [tk|].
  - destruct (tokenize tk _) as [tokens|] eqn:Ht; [|discriminate].
    simpl. intros H; injection H as <-.
    apply tokenize_no_token in Ht as ->. reflexivity.
  - intros H; injection H as <-; reflexivity.
Qed.

Lemma note_collect_words env file metadata : FVM.words (note_collect env file metadata) = 0.
Proof.
  unfold note_collect; cbn [FVM.words].
  destruct (cachedRead env file) as [content|]; [|reflexivity].
  destruct (count_words content metadata) as [[n|]|] eqn:Hc; try reflexivity.
  apply count_words_zero in Hc. exact Hc.
Qed.

Lemma array_length_nonneg l : 0 <= array_length l.
Proof. destruct l; simpl; lia. Qed.

Lemma collect_well_formed env file r :
  collect env file = Some r -> well_formed r /\ FVM.size r = stat_size file.
Proof.
  unfold collect. destruct (getFileCache env file) as [| |m]; try discriminate.
  destruct (getFileType file); try discriminate; intros H; injection H as <-.
  - split; [|reflexivity]. unfold well_formed.
    rewrite note_collect_words. cbn.
    pose proof (array_length_nonneg (md_links m)).
    pose proof (array_length_nonneg (md_tags m)).
    repeat split; try lia. apply quality_of_note.
  - split; [|reflexivity]. unfold well_formed. cbn. repeat split; lia.
Qed.

(** *** Sums over the store *)

Lemma sum_of_pointwise (f g h : FVM.t -> Z) (m : gmap jsstring FVM.t) :
  map_Forall (fun _ r => f r = g r + h r) m -> sum_of f m = sum_of g m + sum_of h m.
Proof.
  induction m as [|k r m Hk IH] using map_ind; intros Hm.
  - rewrite !sum_of_empty. reflexivity.
  - rewrite !sum_of_insert_fresh by exact Hk.
    apply map_Forall_insert in Hm as [Hr Hm]; [|exact Hk].
    rewrite IH by exact Hm. lia.
Qed.

Lemma sum_of_ones (f : FVM.t -> Z) (m : gmap jsstring FVM.t) :
  map_Forall (fun _ r => f r = 1) m -> sum_of f m = Z.of_nat (size m).
Proof.
  induction m as [|k r m Hk IH] using map_ind; intros Hm.
  - rewrite sum_of_empty, map_size_empty. reflexivity.
  - rewrite sum_of_insert_fresh, map_size_insert_None by exact Hk.
    apply map_Forall_insert in Hm as [Hr Hm]; [|exact Hk].
    rewrite IH by exact Hm. lia.
Qed.

Lemma sum_of_nonneg (f : FVM.t -> Z) (m : gmap jsstring FVM.t) :
  map_Forall (fun _ r => 0 <= f r) m -> 0 <= sum_of f m.
Proof.
  induction m as [|k r m Hk IH] using map_ind; intros Hm.
  - rewrite sum_of_empty. lia.
  - rewrite sum_of_insert_fresh by exact Hk.
    apply map_Forall_insert in Hm as [Hr Hm]; [|exact Hk].
    specialize (IH Hm). lia.
Qed.

Lemma sum_of_zeros (f : FVM.t -> Z) (m : gmap jsstring FVM.t) :
  map_Forall (fun _ r => f r = 0) m -> sum_of f m = 0.
Proof.
  induction m as [|k r m Hk IH] using map_ind; intros Hm.
  - apply sum_of_empty.
  - rewrite sum_of_insert_fresh by exact Hk.
    apply map_Forall_insert in Hm as [Hr Hm]; [|exact Hk].
    rewrite IH by exact Hm. lia.
Qed.

(** *** The invariant of the collector *)

Lemma update_sums_ok k r c : sums_ok c -> sums_ok (update k (Some r) c).
Proof.
  unfold sums_ok. intros (H1 & H2 & H3 & H4 & H5 & H6 & H7).
  repeat split; apply update_keeps_sum; try (intros; reflexivity); assumption.
Qed.

Lemma push_fields a c :
  data (push a c) = data c /\ vaultMetrics (push a c) = vaultMetrics c /\
  excludeDirectories (push a c) = excludeDirectories c.
Proof.
  destruct a as [[f|p]|p]; simpl; try (repeat split; fail);
    destruct (contains _ _); repeat split.
Qed.

Lemma push_consistent exclude a c : consistent exclude c -> consistent exclude (push a c).
Proof.
  intros (He & Hb & Hs & Hm). destruct (push_fields a c) as (Hd & Hv & Hx).
  unfold consistent, sums_ok. rewrite Hd, Hv, Hx.
  split; [exact He|]. split; [apply push_NoDup, Hb|]. split; [exact Hs | exact Hm].
Qed.

Lemma process_path_exclude env p c :
  excludeDirectories (process_path env p c) = excludeDirectories c.
Proof.
  unfold process_path. destruct (getAbstractFileByPath env p) as [[f|q]|]; try reflexivity.
  destruct (collect env f); reflexivity.
Qed.

Lemma process_path_consistent exclude env p c :
  excluded_by exclude p = false -> consistent exclude c ->
  consistent exclude (process_path env p c).
Proof.
  intros Hp Hc. unfold process_path.
  destruct (getAbstractFileByPath env p) as [[f|q]|]; try exact Hc.
  destruct (collect env f) as [r|] eqn:Hr; [|exact Hc].
  destruct Hc as (He & Hb & Hs & Hm).
  split; [exact He|]. split; [exact Hb|]. split; [apply update_sums_ok, Hs|].
  cbn [update data]. apply map_Forall_insert_2; [|exact Hm].
  split; [apply (collect_well_formed env f r Hr) | exact Hp].
Qed.

Lemma set_backlog_consistent exclude p queue c :
  backlog c = p :: queue -> consistent exclude c -> consistent exclude (set_backlog queue c).
Proof.
  intros Hq (He & Hb & Hs & Hm). rewrite Hq in Hb. apply NoDup_cons in Hb as [_ Hb].
  split; [exact He|]. split; [exact Hb|]. split; [exact Hs | exact Hm].
Qed.

Lemma processBacklog_loop_consistent exclude env n c :
  consistent exclude c -> consistent exclude (processBacklog_loop env n c).
Proof.
  revert c. induction n as [|n IH]; intros c Hc; [exact Hc|].
  cbn [processBacklog_loop]. destruct (backlog c) as [|p queue] eqn:Hq; [exact Hc|].
  pose proof (set_backlog_consistent exclude p queue c Hq Hc) as Hc1.
  destruct (excluded (set_backlog queue c) p) eqn:Hex; [exact Hc1|].
  apply IH, process_path_consistent; [|exact Hc1].
  destruct Hc as (He & _). unfold excluded in Hex. cbn [set_backlog excludeDirectories] in Hex.
  rewrite He in Hex. exact Hex.
Qed.

Lemma cleared_consistent exclude c :
  excludeDirectories c = exclude ->
  consistent exclude (mkCollector ∅ [] (excludeDirectories c) (FVM.reset (vaultMetrics c))).
Proof.
  intros He. split; [exact He|]. split; [apply NoDup_nil_2|]. split.
  - unfold sums_ok; cbn [data vaultMetrics]. rewrite !sum_of_empty. repeat split.
  - apply map_Forall_empty.
Qed.

Lemma start_consistent exclude getFiles c :
  excludeDirectories c = exclude -> consistent exclude (start getFiles c).
Proof.
  intros He. unfold start.
  generalize (cleared_consistent exclude c He).
  generalize (mkCollector ∅ [] (excludeDirectories c) (FVM.reset (vaultMetrics c))).
  induction getFiles as [|file files IH]; intros c0 Hc0; simpl; [exact Hc0|].
  apply IH. destruct file as [f|p];
    [exact (push_consistent exclude (inl (IsFile f)) c0 Hc0) | exact Hc0].
Qed.

Lemma handle_consistent exclude c e : consistent exclude c -> consistent exclude (handle c e).
Proof.
  intros Hc. destruct e; simpl.
  - apply start_consistent, Hc.
  - apply push_consistent, Hc.
  - apply push_consistent, Hc.
  - apply push_consistent, Hc.
  - apply push_consistent, push_consistent, Hc.
  - apply processBacklog_loop_consistent, Hc.
Qed.

Lemma run_events_consistent exclude events c :
  consistent exclude c -> consistent exclude (run_events events c).
Proof.
  revert c. induction events as [|e events IH]; intros c Hc; simpl; [exact Hc|].
  apply IH, handle_consistent, Hc.
Qed.

Lemma fresh_consistent exclude : consistent exclude (fresh exclude).
Proof.
  split; [reflexivity|]. split; [apply NoDup_nil_2|]. split.
  - unfold sums_ok; cbn [data vaultMetrics fresh]. rewrite !sum_of_empty. repeat split.
  - apply map_Forall_empty.
Qed.

Lemma reachable_consistent exclude events :
  consistent exclude (run_events events (fresh exclude)).
Proof. apply run_events_consistent, fresh_consistent. Qed.

(** *** What a drain does to the backlog and to the store *)

Lemma excluded_set_backlog q c p : excluded (set_backlog q c) p = excluded c p.
Proof. reflexivity. Qed.

Lemma excluded_process_path env q c p :
  excluded (process_path env q c) p = excluded c p.
Proof. unfold excluded. rewrite process_path_exclude. reflexivity. Qed.

Lemma process_path_set_backlog env p q c :
  process_path env p (set_backlog q c) = set_backlog q (process_path env p c).
Proof.
  unfold process_path. destruct (getAbstractFileByPath env p) as [[f|d]|]; try reflexivity.
  destruct (collect env f); reflexivity.
Qed.

Lemma process_all_set_backlog env l q c :
  process_all env l (set_backlog q c) = set_backlog q (process_all env l c).
Proof.
  unfold process_all. revert c. induction l as [|a l IH]; intros c; simpl; [reflexivity|].
  rewrite process_path_set_backlog. apply IH.
Qed.

Lemma set_backlog_twice q q' c : set_backlog q (set_backlog q' c) = set_backlog q c.
Proof. reflexivity. Qed.

Lemma processBacklog_loop_prefix env l : forall n c rest,
  backlog c = l ++ rest -> (length l <= n)%nat ->
  Forall (fun q => excluded c q = false) l ->
  processBacklog_loop env n c =
    processBacklog_loop env (n - length l) (set_backlog rest (process_all env l c)).
Proof.
  induction l as [|p l IH]; intros n c rest Hb Hn Hl.
  - simpl in *. rewrite Nat.sub_0_r. destruct c as [d b e v]; simpl in *. subst b. reflexivity.
  - destruct n as [|n]; [simpl in Hn; lia|].
    inversion Hl as [|? ? Hp Hl']; subst.
    cbn [processBacklog_loop]. rewrite Hb. cbn [app].
    rewrite excluded_set_backlog, Hp.
    rewrite (IH n (process_path env p (set_backlog (l ++ rest) c)) rest).
    + cbn [length Nat.sub]. f_equal.
      change (process_all env (p :: l) c) with (process_all env l (process_path env p c)).
      rewrite process_path_set_backlog, process_all_set_backlog, set_backlog_twice.
      reflexivity.
    + rewrite process_path_backlog. reflexivity.
    + simpl in Hn. lia.
    + eapply Forall_impl; [exact Hl'|]. intros q Hq. cbv beta.
      rewrite excluded_process_path, excluded_set_backlog. exact Hq.
Qed.

Lemma process_all_backlog env l c : backlog (process_all env l c) = backlog c.
Proof.
  unfold process_all. revert c. induction l as [|p l IH]; intros c; simpl; [reflexivity|].
  rewrite IH. apply process_path_backlog.
Qed.

Lemma process_all_exclude env l c :
  excludeDirectories (process_all env l c) = excludeDirectories c.
Proof.
  unfold process_all. revert c. induction l as [|p l IH]; intros c; simpl; [reflexivity|].
  rewrite IH. apply process_path_exclude.
Qed.

Lemma processBacklog_all env c :
  Forall (fun q => excluded c q = false) (backlog c) ->
  processBacklog env c = set_backlog [] (process_all env (backlog c) c).
Proof.
  intros Hall. unfold processBacklog.
  rewrite (processBacklog_loop_prefix env (backlog c) _ c []);
    [|symmetry; apply app_nil_r|lia|exact Hall].
  rewrite Nat.sub_diag. reflexivity.
Qed.

Lemma processBacklog_upto env c l p rest :
  backlog c = l ++ p :: rest ->
  Forall (fun q => excluded c q = false) l -> excluded c p = true ->
  processBacklog env c = set_backlog rest (process_all env l c).
Proof.
  intros Hb Hl Hp. unfold processBacklog.
  rewrite (processBacklog_loop_prefix env l _ c (p :: rest) Hb);
    [|rewrite Hb, length_app; lia|exact Hl].
  rewrite Hb, length_app. cbn [length].
  replace (length l + S (length rest) - length l)%nat with (S (length rest)) by lia.
  cbn [processBacklog_loop set_backlog backlog].
  match goal with
  | |- context [excluded ?c' p] => replace (excluded c' p) with true
  end; [reflexivity|].
  symmetry. rewrite <- Hp. unfold excluded. cbn [set_backlog excludeDirectories].
  rewrite process_all_exclude. reflexivity.
Qed.

Lemma process_path_lookup env p c k :
  data (process_path env p c) !! k =
    if decide (k = p) then
      match getAbstractFileByPath env p with
      | Some (IsFile file) =>
          match collect env file with
          | Some r => Some r
          | None => data c !! k
          end
      | _ => data c !! k
      end
    else data c !! k.
Proof.
  unfold process_path.
  destruct (getAbstractFileByPath env p) as [[f|d]|]; try (destruct (decide (k = p)); reflexivity).
  destruct (collect env f) as [r|]; [|destruct (decide (k = p)); reflexivity].
  cbn [update data]. destruct (decide (k = p)) as [->|Hne].
  - apply lookup_insert_eq.
  - apply lookup_insert_ne. congruence.
Qed.

Lemma process_all_lookup env l c k :
  data (process_all env l c) !! k = drained env l (data c !! k) k.
Proof.
  revert c. induction l as [|p l IH]; intros c.
  - unfold drained. simpl. destruct (decide (k ∈ [])) as [H|_]; [inversion H | reflexivity].
  - cbn [process_all fold_left]. unfold process_all in IH. rewrite IH.
    rewrite process_path_lookup. unfold drained.
    destruct (decide (k = p)) as [->|Hne].
    + destruct (decide (p ∈ p :: l)) as [_|Hn]; [|exfalso; apply Hn; left].
      destruct (decide (p ∈ l)); destruct (getAbstractFileByPath env p) as [[f|d]|];
        try reflexivity; destruct (collect env f); reflexivity.
    + destruct (decide (k ∈ l)) as [Hin|Hout].
      * destruct (decide (k ∈ p :: l)) as [_|Hn]; [reflexivity|].
        exfalso; apply Hn; right; exact Hin.
      * destruct (decide (k ∈ p :: l)) as [Hin|_]; [|reflexivity].
        apply elem_of_cons in Hin as [->|Hin]; contradiction.
Qed.

Lemma processBacklog_loop_data env n c :
  exists l rest, backlog c = l ++ rest /\ data (processBacklog_loop env n c) = data (process_all env l c).
Proof.
  revert c. induction n as [|n IH]; intros c.
  - exists [], (backlog c). split; reflexivity.
  - cbn [processBacklog_loop]. destruct (backlog c) as [|p queue] eqn:Hb.
    + exists [], []. split; reflexivity.
    + destruct (excluded _ p).
      * exists [], (p :: queue). split; reflexivity.
      * destruct (IH (process_path env p (set_backlog queue c))) as (l & rest & Hl & Hd).
        rewrite process_path_backlog in Hl. cbn [set_backlog backlog] in Hl.
        exists (p :: l), rest. split; [rewrite Hl; reflexivity|].
        rewrite Hd.
        change (process_all env (p :: l) c) with (process_all env l (process_path env p c)).
        rewrite process_path_set_backlog, process_all_set_backlog. reflexivity.
Qed.

(** X1.  After any history of [start], file events and drains, begun with a
    fresh collector, each of the seven summed fields of the aggregate is
    the sum of that field over the records of the store. *)
Theorem events_keep_aggregate (events : list Event) (exclude : jsstring) :
  let c := run_events events (fresh exclude) in
  FVM.files (vaultMetrics c) = sum_of FVM.files (data c) /\
  FVM.notes (vaultMetrics c) = sum_of FVM.notes (data c) /\
  FVM.attachments (vaultMetrics c) = sum_of FVM.attachments (data c) /\
  FVM.size (vaultMetrics c) = sum_of FVM.size (data c) /\
  FVM.links (vaultMetrics c) = sum_of FVM.links (data c) /\
  FVM.words (vaultMetrics c) = sum_of FVM.words (data c) /\
  FVM.tags (vaultMetrics c) = sum_of FVM.tags (data c).
Proof. cbv zeta. apply (reachable_consistent exclude events). Qed.

(** X2.  After any such history the aggregate counts the store: [files] is
    the number of keys stored, [notes] and [attachments] add up to
    [files], and [notes], [attachments], [links] and [tags] are not
    negative. *)
Theorem aggregate_counts_the_store (events : list Event) (exclude : jsstring) :
  let c := run_events events (fresh exclude) in
  FVM.files (vaultMetrics c) = Z.of_nat (size (data c)) /\
  FVM.notes (vaultMetrics c) + FVM.attachments (vaultMetrics c) = FVM.files (vaultMetrics c) /\
  0 <= FVM.notes (vaultMetrics c) /\ 0 <= FVM.attachments (vaultMetrics c) /\
  0 <= FVM.links (vaultMetrics c) /\ 0 <= FVM.tags (vaultMetrics c).
Proof.
  cbv zeta. destruct (reachable_consistent exclude events) as (_ & _ & Hs & Hm).
  destruct Hs as (Hf & Hn & Ha & _ & Hl & _ & Ht).
  rewrite Hf, Hn, Ha, Hl, Ht.
  assert (H1 : sum_of FVM.files (data (run_events events (fresh exclude)))
               = Z.of_nat (size (data (run_events events (fresh exclude))))).
  { apply sum_of_ones. intros k r Hk. apply (Hm k r Hk). }
  assert (H2 : sum_of FVM.files (data (run_events events (fresh exclude)))
               = sum_of FVM.notes (data (run_events events (fresh exclude)))
                 + sum_of FVM.attachments (data (run_events events (fresh exclude)))).
  { apply sum_of_pointwise. intros k r Hk. destruct (Hm k r Hk) as [(E1 & E2 & _) _]. lia. }
  split; [exact H1|]. split; [lia|].
  repeat split; apply sum_of_nonneg; intros k r Hk;
    destruct (Hm k r Hk) as [(_ & _ & ? & ? & ? & ? & _) _]; assumption.
Qed.

(** X3.  A key that the exclusion string excludes never has a record in the
    store, whatever is started, pushed and drained (the string being the
    one the collector was built with). *)
Theorem excluded_key_never_stored (events : list Event) (exclude k : jsstring) :
  excluded_by exclude k = true ->
  data (run_events events (fresh exclude)) !! k = None.
Proof.
  intros Hk. destruct (reachable_consistent exclude events) as (_ & _ & _ & Hm).
  destruct (data _ !! k) as [r|] eqn:Hr; [|reflexivity].
  destruct (Hm k r Hr) as [_ Hex]. congruence.
Qed.

(** X4.  As the tokenizer is written, every record [collect] returns has a
    word count of zero, and so has the aggregate after any history: a
    markdown section either yields no token or makes the read callback
    throw, which the [catch] turns into 0. *)
Theorem word_count_is_always_zero :
  (forall env file r, collect env file = Some r -> FVM.words r = 0) /\
  (forall events exclude, FVM.words (vaultMetrics (run_events events (fresh exclude))) = 0).
Proof.
  split.
  - intros env file r Hr. apply (collect_well_formed env file r Hr).
  - intros events exclude.
    destruct (reachable_consistent exclude events) as (_ & _ & Hs & Hm).
    destruct Hs as (_ & _ & _ & _ & _ & -> & _).
    apply sum_of_zeros. intros k r Hk. apply (Hm k r Hk).
Qed.

(** The drain taken as one step, with no queued path excluded: the
    backlog is emptied and every queued key that resolves to a file with
    metadata gets its freshly collected record. *)
Lemma drain_without_exclusion (env : Env) (c : Collector) :
  Forall (fun p => excluded c p = false) (backlog c) ->
  backlog (processBacklog env c) = [] /\
  forall k, data (processBacklog env c) !! k = drained env (backlog c) (data c !! k) k.
Proof.
  intros Hall. rewrite (processBacklog_all env c Hall). split; [reflexivity|].
  intros k. cbn [set_backlog data]. apply process_all_lookup.
Qed.

(** The drain taken as one step, with an excluded path in the backlog:
    the paths before it are handled, it is dropped and the rest stays. *)
Lemma drain_up_to_excluded (env : Env) (c : Collector) (l rest : list jsstring) (p : jsstring) :
  backlog c = l ++ p :: rest ->
  Forall (fun q => excluded c q = false) l ->
  excluded c p = true ->
  backlog (processBacklog env c) = rest /\
  forall k, data (processBacklog env c) !! k = drained env l (data c !! k) k.
Proof.
  intros Hb Hl Hp. rewrite (processBacklog_upto env c l p rest Hb Hl Hp).
  split; [reflexivity|]. intros k. cbn [set_backlog data]. apply process_all_lookup.
Qed.

Lemma ratio_same l n l' n' : l = l' -> n = n' -> FVM.ratio l n = FVM.ratio l' n'.
Proof. intros -> ->. reflexivity. Qed.

(** X8.  Two [update]s of the same key in a row amount to the second one
    alone: the later record replaces the earlier one in the store and
    in the aggregate. *)
Theorem update_last_wins (k : TFile + jsstring) (r1 r2 : FVM.t) (c : Collector) :
  update k (Some r2) (update k (Some r1) c) = update k (Some r2) c.
Proof.
  unfold update; cbn [data backlog excludeDirectories vaultMetrics].
  rewrite lookup_insert_eq, insert_insert_eq. cbn [default].
  f_equal. generalize (default FVM.zero (data c !! update_key k)).
  fold (update_key k). intros old.
  destruct r1, r2, old, (vaultMetrics c). unfold FVM.inc, FVM.dec; cbn.
  f_equal; try lia. apply ratio_same; lia.
Qed.

(** X9.  [update]s of two different keys commute: the state does not depend
    on the order in which the two records arrive. *)
Theorem update_commutes (k1 k2 : TFile + jsstring) (r1 r2 : FVM.t) (c : Collector) :
  update_key k1 <> update_key k2 ->
  update k1 (Some r1) (update k2 (Some r2) c) = update k2 (Some r2) (update k1 (Some r1) c).
Proof.
  intros Hne. unfold update; cbn [data backlog excludeDirectories vaultMetrics].
  fold (update_key k1). fold (update_key k2).
  rewrite !lookup_insert_ne by congruence.
  f_equal; [apply insert_insert_ne; congruence|].
  generalize (default FVM.zero (data c !! update_key k1)) as o1.
  generalize (default FVM.zero (data c !! update_key k2)) as o2. intros o2 o1.
  destruct r1, r2, o1, o2, (vaultMetrics c). unfold FVM.inc, FVM.dec; cbn.
  f_equal; try lia. apply ratio_same; lia.
Qed.

(** *** Classification, start and the handlers *)

(** X10.  A file is a note exactly when its extension is one of [md], [Md],
    [mD], [MD]; every other file, and a file without extension, is an
    attachment; [Unknown] is never the answer. *)
Theorem getFileType_note_iff (file : TFile) :
  (getFileType file = Note <->
     exists e, extension file = Some e /\
       (e = js "md" \/ e = js "Md" \/ e = js "mD" \/ e = js "MD")) /\
  (getFileType file = Attachment <-> getFileType file <> Note) /\
  getFileType file <> Unknown.
Proof.
  unfold getFileType. destruct (extension file) as [e|].
  - destruct (decide (toLowerCase e = js "md")) as [Hmd|Hmd].
    + split; [|split; [|discriminate]].
      * split; [intros _; exists e; split; [reflexivity | apply toLowerCase_md, Hmd] | reflexivity].
      * split; [discriminate | intros H; contradiction].
    + split; [|split; [|discriminate]].
      * split; [discriminate|]. intros (e' & He & Hsp). injection He as <-.
        exfalso. apply Hmd, toLowerCase_md, Hsp.
      * split; [discriminate | reflexivity].
  - split; [|split; [|discriminate]].
    + split; [discriminate | intros (e & He & _); discriminate].
    + split; [discriminate | reflexivity].
Qed.

Lemma push_elem a c k :
  k ∈ backlog (push a c) <-> k ∈ backlog c \/ key_of a = Some k.
Proof.
  rewrite push_backlog. destruct (key_of a) as [p|].
  - destruct (contains (backlog c) p) eqn:Hp.
    + apply contains_true in Hp. split; [tauto|]. intros [H|H]; [exact H|]. congruence.
    + rewrite elem_of_app, list_elem_of_singleton. split; intros [H|H]; try tauto.
      * right. congruence.
      * right. congruence.
  - split; [tauto|]. intros [H|H]; [exact H | discriminate].
Qed.

Lemma push_prefix a c : backlog c `prefix_of` backlog (push a c).
Proof.
  rewrite push_backlog. destruct (key_of a) as [p|]; [|reflexivity].
  destruct (contains (backlog c) p); [reflexivity|]. apply prefix_app_r. reflexivity.
Qed.

Lemma start_loop_fields files c :
  let c' := fold_left
              (fun c file => match file with IsFolder _ => c | IsFile _ => push (inl file) c end)
              files c in
  data c' = data c /\ vaultMetrics c' = vaultMetrics c /\
  excludeDirectories c' = excludeDirectories c /\
  (NoDup (backlog c) -> NoDup (backlog c')) /\
  forall k, k ∈ backlog c' <-> k ∈ backlog c \/ exists f, IsFile f ∈ files /\ path f = k.
Proof.
  cbv zeta. revert c. induction files as [|file files IH]; intros c; cbn [fold_left].
  - repeat split; try tauto. intros [H|(f & Hf & _)]; [exact H | inversion Hf].
  - destruct file as [f|d].
    + destruct (IH (push (inl (IsFile f)) c)) as (Hd & Hv & Hx & Hn & Hk).
      destruct (push_fields (inl (IsFile f)) c) as (Hd' & Hv' & Hx').
      rewrite Hd, Hv, Hx, Hd', Hv', Hx'. repeat split.
      * intros H. apply Hn, push_NoDup, H.
      * intros H. apply Hk in H as [H|(f' & Hf' & Hp)].
        -- apply push_elem in H as [H|H]; [left; exact H|].
           right. exists f. split; [left | injection H as <-; reflexivity].
        -- right. exists f'. split; [right; exact Hf' | exact Hp].
      * intros H. apply Hk. destruct H as [H|(f' & Hf' & Hp)].
        -- left. apply push_elem. left. exact H.
        -- apply elem_of_cons in Hf' as [Hf'|Hf'].
           ++ injection Hf' as ->. left. apply push_elem. right. simpl. f_equal. exact Hp.
           ++ right. exists f'. split; assumption.
    + destruct (IH c) as (Hd & Hv & Hx & Hn & Hk). repeat split; try assumption.
      * intros H. apply Hk in H as [H|(f' & Hf' & Hp)]; [left; exact H|].
        right. exists f'. split; [right; exact Hf' | exact Hp].
      * intros H. apply Hk. destruct H as [H|(f' & Hf' & Hp)]; [left; exact H|].
        apply elem_of_cons in Hf' as [Hf'|Hf']; [discriminate|].
        right. exists f'. split; assumption.
Qed.

(** X11.  [start] empties the store, resets the aggregate, keeps the exclusion
    string and leaves in the backlog, once each, exactly the paths of the
    enumerated entries that are files. *)
Theorem start_queues_every_file (getFiles : list TAbstractFile) (c : Collector) :
  let c' := start getFiles c in
  data c' = ∅ /\ vaultMetrics c' = FVM.zero /\
  excludeDirectories c' = excludeDirectories c /\
  NoDup (backlog c') /\
  forall k, k ∈ backlog c' <-> exists f, IsFile f ∈ getFiles /\ path f = k.
Proof.
  cbv zeta. unfold start.
  destruct (start_loop_fields getFiles
              (mkCollector ∅ [] (excludeDirectories c) (FVM.reset (vaultMetrics c))))
    as (Hd & Hv & Hx & Hn & Hk).
  cbv zeta in *. rewrite Hd, Hv, Hx. repeat split.
  - apply Hn, NoDup_nil_2.
  - intros H. apply Hk in H as [H|H]; [inversion H | exact H].
  - intros H. apply Hk. right. exact H.
Qed.

(** X12.  A rename queues the old path and, unless it is a folder, the path
    of the renamed file; what was queued before stays in front and in
    order, nothing else is queued, no key is queued twice, and the store
    and the aggregate are not touched. *)
Theorem rename_queues_both_paths (file : TAbstractFile) (oldPath : jsstring) (c : Collector) :
  let c' := onfilerenamed file oldPath c in
  oldPath ∈ backlog c' /\
  (forall f, file = IsFile f -> path f ∈ backlog c') /\
  backlog c `prefix_of` backlog c' /\
  (NoDup (backlog c) -> NoDup (backlog c')) /\
  (forall k, k ∈ backlog c' -> k ∈ backlog c \/ k = oldPath \/ key_of (inl file) = Some k) /\
  data c' = data c /\ vaultMetrics c' = vaultMetrics c.
Proof.
  cbv zeta. unfold onfilerenamed. repeat split.
  - apply push_elem. right. reflexivity.
  - intros f ->. apply push_elem. left. apply push_elem. right. reflexivity.
  - etransitivity; apply push_prefix.
  - intros H. apply push_NoDup, push_NoDup, H.
  - intros k H. apply push_elem in H as [H|H].
    + apply push_elem in H as [H|H]; [left; exact H | right; right; exact H].
    + right; left. injection H as <-. reflexivity.
  - destruct (push_fields (inr oldPath) (push (inl file) c)) as (-> & _).
    apply push_fields.
  - destruct (push_fields (inr oldPath) (push (inl file) c)) as (_ & -> & _).
    apply push_fields.
Qed.

(** *** The exclusion test *)

Lemma starts_with_spec s sub : starts_with s sub = true <-> exists b, s = sub ++ b.
Proof.
  revert s. induction sub as [|a sub IH]; intros s.
  - destruct s; simpl; (split; [intros _; eexists; reflexivity | reflexivity]).
  - destruct s as [|c s]; simpl.
    + split; [discriminate | intros (b & Hb); discriminate].
    + rewrite andb_true_iff, N.eqb_eq, IH. split.
      * intros (-> & b & ->). exists b. reflexivity.
      * intros (b & Hb). injection Hb as -> ->. split; [reflexivity | exists b; reflexivity].
Qed.

Lemma includes_spec s sub : includes s sub = true <-> exists a b, s = a ++ sub ++ b.
Proof.
  induction s as [|c s IH]; cbn [includes]; rewrite orb_true_iff, starts_with_spec.
  - split.
    + intros [(b & Hb)|H]; [exists [], b; exact Hb | discriminate].
    + intros (a & b & H). left. destruct a; [exists b; exact H | discriminate].
  - rewrite IH. split.
    + intros [(b & Hb)|(a & b & ->)]; [exists [], b; exact Hb | exists (c :: a), b; reflexivity].
    + intros (a & b & H). destruct a as [|c' a].
      * left. exists b. exact H.
      * right. injection H as -> ->. exists a, b. reflexivity.
Qed.

(** X13.  A path is excluded exactly when one of its segments between
    slashes occurs somewhere in the exclusion string (as a substring, not
    as a whole token); the empty segment always does, so the empty path
    and every path starting with a slash are excluded whatever the
    string. *)
Theorem excluded_iff_segment_in_string (c : Collector) (p : jsstring) :
  (excluded c p = true <->
     exists seg a b, seg ∈ split_slash p /\ excludeDirectories c = a ++ seg ++ b) /\
  ([] ∈ split_slash p -> excluded c p = true) /\
  excluded c [] = true /\
  excluded c (47%N :: p) = true.
Proof.
  assert (Hiff : excluded c p = true <->
     exists seg a b, seg ∈ split_slash p /\ excludeDirectories c = a ++ seg ++ b).
  { unfold excluded. rewrite existsb_exists. split.
    - intros (seg & Hin & Hinc). apply includes_spec in Hinc as (a & b & Hab).
      exists seg, a, b. split; [apply list_elem_of_In, Hin | exact Hab].
    - intros (seg & a & b & Hin & Hab). exists seg.
      split; [apply list_elem_of_In, Hin | apply includes_spec; exists a, b; exact Hab]. }
  assert (Hempty : forall q, [] ∈ split_slash q -> excluded c q = true).
  { intros q Hq. unfold excluded. apply existsb_exists. exists [].
    split; [apply list_elem_of_In, Hq|]. apply includes_spec.
    exists [], (excludeDirectories c). reflexivity. }
  split; [exact Hiff|]. split; [apply Hempty|]. split; apply Hempty.
  - left.
  - cbn [split_slash]. rewrite N.eqb_refl. left.
Qed.

(** ** The tokenizer *)

Local Close Scope Z_scope.

(** *** Completeness of the matcher *)

Lemma sem_advances r x y : sem r x y -> nonnull r = true -> (pos x < pos y)%nat.
Proof.
  induction 1 as [x|p x c cs Hr Hp|r1 r2 x y z H1 IH1 H2 IH2|r1 r2 x y _ IH|r1 r2 x y _ IH
                 |g r x|g r x y z _ IH1 _ IH2|r x|r x y _ IH|n r x y _ IH|x Hp|x Hr];
    cbn [nonnull]; intros Hn; try discriminate.
  - simpl. lia.
  - destruct (sem_consumes _ _ _ H1) as (w1 & _ & P1 & _).
    destruct (sem_consumes _ _ _ H2) as (w2 & _ & P2 & _).
    apply orb_true_iff in Hn as [Hn|Hn]; [specialize (IH1 Hn) | specialize (IH2 Hn)]; lia.
  - apply andb_true_iff in Hn as [Hn _]. apply IH, Hn.
  - apply andb_true_iff in Hn as [_ Hn]. apply IH, Hn.
  - simpl. apply IH, Hn.
Qed.

Lemma sem_shortens r x y :
  sem r x y -> (pos x < pos y)%nat -> (length (rest y) < length (rest x))%nat.
Proof.
  intros H Hlt. destruct (sem_consumes _ _ _ H) as (w & E & P & _).
  rewrite E, length_app. lia.
Qed.

Lemma run_complete r x y :
  sem r x y -> well_quantified r = true ->
  forall k z, k y = Some z -> is_Some (run r x k).
Proof.
  induction 1 as [x|p x c cs Hr Hp|r1 r2 x y z H1 IH1 H2 IH2|r1 r2 x y _ IH|r1 r2 x y _ IH
                 |g r x|g r x y z H1 IH1 H2 IH2|r x|r x y H1 IH|n r x y _ IH|x Hp|x Hr];
    cbn [well_quantified]; intros Hw k z0 Hk.
  - simpl. rewrite Hk. eexists; reflexivity.
  - cbn [run]. rewrite Hr, Hp, Hk. eexists; reflexivity.
  - apply andb_true_iff in Hw as [Hw1 Hw2].
    destruct (IH2 Hw2 k z0 Hk) as [z' Hz']. cbn [run].
    exact (IH1 Hw1 (fun y => run r2 y k) z' Hz').
  - apply andb_true_iff in Hw as [Hw1 _]. cbn [run].
    destruct (IH Hw1 k z0 Hk) as [z' ->]. eexists; reflexivity.
  - apply andb_true_iff in Hw as [_ Hw2]. cbn [run].
    destruct (run r1 x k) as [z'|]; [eexists; reflexivity|]. exact (IH Hw2 k z0 Hk).
  - cbn [run star_loop]. destruct g.
    + destruct (run r x _) as [z'|]; [eexists; reflexivity|]. rewrite Hk. eexists; reflexivity.
    + rewrite Hk. eexists; reflexivity.
  - pose proof Hw as Hw'. apply andb_true_iff in Hw' as [Hn Hwr].
    pose proof (sem_advances _ _ _ H1 Hn) as Hlt.
    pose proof (sem_shortens _ _ _ H1 Hlt) as Hlen.
    destruct (IH2 Hw k z0 Hk) as [z2 Hz2]. cbn [run] in Hz2.
    assert (Hagain : (fun y0 => if (pos x <? pos y0)%nat
                                then star_loop (run r) g k (length (rest x)) y0 else None) y
                     = Some z2).
    { cbv beta. replace (pos x <? pos y)%nat with true by (symmetry; apply Nat.ltb_lt, Hlt).
      rewrite <- Hz2. apply star_loop_fuel; lia. }
    destruct (IH1 Hwr _ z2 Hagain) as [z3 Hz3].
    cbn [run star_loop]. destruct g.
    + rewrite Hz3. eexists; reflexivity.
    + destruct (k x) as [z'|]; [eexists; reflexivity|]. rewrite Hz3. eexists; reflexivity.
  - cbn [run]. destruct (run r x _) as [z'|]; [eexists; reflexivity|].
    rewrite Hk. eexists; reflexivity.
  - apply andb_true_iff in Hw as [Hn Hwr].
    pose proof (sem_advances _ _ _ H1 Hn) as Hlt.
    assert (Hcont : (fun y0 => if (pos x <? pos y0)%nat then k y0 else None) y = Some z0).
    { cbv beta. replace (pos x <? pos y)%nat with true by (symmetry; apply Nat.ltb_lt, Hlt).
      exact Hk. }
    cbn [run]. destruct (IH Hwr _ z0 Hcont) as [z' ->]. eexists; reflexivity.
  - cbn [run]. exact (IH Hw (fun y0 => k (set_cap n (captured x y0) y0)) z0 Hk).
  - cbn [run]. rewrite Hp. cbn. rewrite Hk. eexists; reflexivity.
  - cbn [run]. rewrite Hr, Hk. eexists; reflexivity.
Qed.

(** A pattern anchored at the start matches a string exactly when it
    has a run from the start of the string. *)
Lemma exec_anchored_iff r s :
  well_quantified r = true ->
  is_Some (exec (Bol -:- r) s) <-> exists y, sem r (start_state (Bol -:- r) O s) y.
Proof.
  intros Hw. split.
  - intros [m Hm]. apply exec_anchored in Hm as (y & Hy & _). exists y. exact Hy.
  - intros (y & Hy).
    assert (Hrun : is_Some (run (Bol -:- r) (start_state (Bol -:- r) O s) Some)).
    { apply (run_complete (Bol -:- r) _ y) with (z := y); [|exact Hw|reflexivity].
      eapply sem_Seq; [apply sem_Bol; reflexivity | exact Hy]. }
    destruct Hrun as [z Hz]. unfold exec.
    destruct s as [|c s]; cbn [exec_from]; rewrite Hz; eexists; reflexivity.
Qed.

Lemma sem_star_chars g p w : forall q t cs,
  Forall (fun c => p c = true) w ->
  sem (Star g (Chars p)) (mkState q (w ++ t) cs) (mkState (q + length w) t cs).
Proof.
  induction w as [|c w IH]; intros q t cs Hw.
  - simpl. replace (q + 0)%nat with q by lia. apply sem_StarNil.
  - inversion Hw as [|? ? Hc Hw']; subst.
    eapply sem_StarCons.
    + apply (sem_Chars p (mkState q ((c :: w) ++ t) cs) c (w ++ t)); [reflexivity | exact Hc].
    + unfold advance; cbn [pos caps]. replace (q + length (c :: w))%nat with (S q + length w)%nat
        by (simpl; lia). apply IH, Hw'.
Qed.

Lemma sem_plus_chars p w : forall q t cs,
  w <> [] -> Forall (fun c => p c = true) w ->
  sem (Plus (Chars p)) (mkState q (w ++ t) cs) (mkState (q + length w) t cs).
Proof.
  intros q t cs Hne Hw. destruct w as [|c w]; [contradiction|].
  inversion Hw as [|? ? Hc Hw']; subst. unfold Plus. eapply sem_Seq.
  - apply (sem_Chars p (mkState q ((c :: w) ++ t) cs) c (w ++ t)); [reflexivity | exact Hc].
  - unfold advance; cbn [pos caps]. replace (q + length (c :: w))%nat with (S q + length w)%nat
      by (simpl; lia). apply sem_star_chars, Hw'.
Qed.

Lemma sem_plus_chars_inv p x y :
  sem (Plus (Chars p)) x y ->
  exists w, w <> [] /\ Forall (fun c => p c = true) w /\
            rest x = w ++ rest y /\ pos y = (pos x + length w)%nat /\ caps y = caps x.
Proof.
  intros H. destruct (sem_consumes _ _ _ H) as (w & E & P & F).
  destruct (sem_caps _ _ _ H) as [_ C].
  exists w. split; [|split; [|split; [exact E|split; [exact P|]]]].
  - pose proof (sem_advances _ _ _ H eq_refl). intros ->. simpl in P. lia.
  - apply F. cbn. tauto.
  - apply list_eq. intros n. apply C. cbn. intros Hin. inversion Hin.
Qed.

Lemma sem_chr_inv a x y :
  sem (Chr a) x y ->
  rest x = N_of_ascii a :: rest y /\ pos y = S (pos x) /\ caps y = caps x.
Proof.
  unfold Chr. intros H. inversion H as [|? ? c cs Hr Hp| | | | | | | | | |]; subst.
  apply N.eqb_eq in Hp. subst c. cbn. split; [exact Hr | split; reflexivity].
Qed.

(** *** The three filters of [tokenize] *)

Lemma sem_seq_inv r1 r2 x z : sem (r1 -:- r2) x z -> exists y, sem r1 x y /\ sem r2 y z.
Proof. intros H. inversion H; subst. eexists; split; eassumption. Qed.

Lemma sem_eol_inv x y : sem Eol x y -> y = x /\ rest x = [].
Proof. intros H. inversion H; subst. split; [reflexivity | assumption]. Qed.

Lemma sem_opt_inv r x y : sem (Opt r) x y -> y = x \/ sem r x y.
Proof. intros H. inversion H; subst; [left; reflexivity | right; assumption]. Qed.

Lemma sem_group_inv n r x z :
  sem (Group n r) x z -> exists y, sem r x y /\ rest z = rest y /\ pos z = pos y.
Proof. intros H. inversion H; subst. eexists; split; [eassumption | split; reflexivity]. Qed.

(** X18.  [isNonWord] holds exactly of the non-empty strings without any word
    character. *)
Theorem isNonWord_iff (token : jsstring) :
  isNonWord token = true <->
  token <> [] /\ Forall (fun c => word_char c = false) token.
Proof.
  split.
  - intros H. apply bool_decide_eq_true in H.
    unfold NON_WORDS in H. apply exec_anchored_iff in H as (y & Hy); [|reflexivity].
    apply sem_seq_inv in Hy as (y1 & Hplus & Heol).
    apply sem_eol_inv in Heol as [-> Hend].
    apply sem_plus_chars_inv in Hplus as (w & Hne & Hw & E & _).
    cbn [start_state rest] in E. rewrite Hend, app_nil_r in E. subst w.
    split; [exact Hne|]. eapply Forall_impl; [exact Hw|].
    intros c Hc. cbv beta in Hc. apply negb_true_iff in Hc. exact Hc.
  - intros [Hne Hall]. apply isNonWord_complete; assumption.
Qed.

(** X19.  [isNumber] holds exactly of the strings made of one or more digits,
    optionally followed by one full stop and one or more digits. *)
Theorem isNumber_iff (token : jsstring) :
  isNumber token = true <->
  exists ds, digits ds /\
    (token = ds \/ exists fs, digits fs /\ token = ds ++ [46%N] ++ fs).
Proof.
  unfold isNumber, NUMBER. rewrite bool_decide_eq_true.
  rewrite exec_anchored_iff by reflexivity. split.
  - intros (y & Hy).
    apply sem_seq_inv in Hy as (y1 & Hplus & Hy).
    apply sem_seq_inv in Hy as (y2 & Hopt & Heol).
    apply sem_eol_inv in Heol as [-> Hend].
    apply sem_plus_chars_inv in Hplus as (ds & Hne & Hds & E & _).
    cbn [start_state rest] in E. exists ds. split; [split; assumption|].
    apply sem_opt_inv in Hopt as [-> | Hgrp].
    + left. rewrite Hend, app_nil_r in E. exact E.
    + right. apply sem_group_inv in Hgrp as (y3 & Hfrac & Hr & _).
      apply sem_seq_inv in Hfrac as (y4 & Hdot & Hfs).
      apply sem_chr_inv in Hdot as (Edot & _).
      apply sem_plus_chars_inv in Hfs as (fs & Hfne & Hfs & Ef & _).
      exists fs. split; [split; assumption|].
      rewrite E, Edot, Ef, <- Hr, Hend, app_nil_r. reflexivity.
  - intros (ds & [Hne Hds] & Hshape).
    set (cs := replicate 2 (@None jsstring)).
    destruct Hshape as [-> | (fs & [Hfne Hfs] & ->)].
    + pose proof (sem_plus_chars is_digit ds O [] cs Hne Hds) as H1.
      rewrite app_nil_r in H1. eexists.
      eapply sem_Seq; [exact H1|].
      eapply sem_Seq; [apply sem_OptNone | apply sem_Eol; reflexivity].
    + pose proof (sem_plus_chars is_digit ds O ([46%N] ++ fs) cs Hne Hds) as H1.
      pose proof (sem_plus_chars is_digit fs (S (0 + length ds)) [] cs Hfne Hfs) as H2.
      rewrite app_nil_r in H2. eexists.
      eapply sem_Seq; [exact H1|].
      eapply sem_Seq.
      { apply sem_OptSome, sem_Group. eapply sem_Seq; [|exact H2].
        exact (sem_Chars (N.eqb 46) (mkState (0 + length ds) ([46%N] ++ fs) cs) 46%N fs
                 eq_refl eq_refl). }
      apply sem_Eol; reflexivity.
Qed.

(** X20.  [isCodeBlockHeader] holds exactly of three backticks followed by one
    or more [\w] characters. *)
Theorem isCodeBlockHeader_iff (token : jsstring) :
  isCodeBlockHeader token = true <->
  exists w, w <> [] /\ Forall (fun c => is_word c = true) w /\ token = js "```" ++ w.
Proof.
  unfold isCodeBlockHeader, CODE_BLOCK_HEADER. rewrite bool_decide_eq_true.
  rewrite exec_anchored_iff by reflexivity. split.
  - intros (y & Hy).
    apply sem_seq_inv in Hy as (y1 & Hlit & Hy).
    apply sem_seq_inv in Hy as (y2 & Hplus & Heol).
    apply sem_eol_inv in Heol as [-> Hend].
    cbn [Lit] in Hlit.
    apply sem_seq_inv in Hlit as (a1 & H1 & Hlit).
    apply sem_seq_inv in Hlit as (a2 & H2 & H3).
    apply sem_chr_inv in H1 as (E1 & _). apply sem_chr_inv in H2 as (E2 & _).
    apply sem_chr_inv in H3 as (E3 & _).
    apply sem_plus_chars_inv in Hplus as (w & Hne & Hw & E & _).
    exists w. split; [exact Hne|]. split; [exact Hw|].
    cbn [start_state rest] in E1. rewrite E1, E2, E3, E, Hend, app_nil_r. reflexivity.
  - intros (w & Hne & Hw & ->).
    set (cs := replicate 1 (@None jsstring)).
    pose proof (sem_plus_chars is_word w 3 [] cs Hne Hw) as H1.
    rewrite app_nil_r in H1. eexists.
    eapply sem_Seq; [|eapply sem_Seq; [exact H1 | apply sem_Eol; reflexivity]].
    cbn [Lit]. eapply sem_Seq; [|eapply sem_Seq].
    + exact (sem_Chars (N.eqb 96) (mkState 0 (js "```" ++ w) cs) 96%N (96%N :: 96%N :: w)
               eq_refl eq_refl).
    + exact (sem_Chars (N.eqb 96) (mkState 1 (96%N :: 96%N :: w) cs) 96%N (96%N :: w)
               eq_refl eq_refl).
    + exact (sem_Chars (N.eqb 96) (mkState 2 (96%N :: w) cs) 96%N w eq_refl eq_refl).
Qed.

(** *** What one strip does *)

Lemma strip_matched A B t :
  groups B = [] -> within is_marker A -> within is_marker B ->
  within (fun c => negb (is_line_terminator c)) A ->
  within (fun c => negb (is_line_terminator c)) B ->
  is_Some (exec (Bol -:- Opt (Group 1 A) -:- Group 2 (Star false Dot) -:- Opt (Group 3 B) -:- Eol) t) ->
  one_line t /\
  exists a b,
    t = a ++ strip (Bol -:- Opt (Group 1 A) -:- Group 2 (Star false Dot)
                        -:- Opt (Group 3 B) -:- Eol) t ++ b /\
    Forall (fun c => is_marker c = true) a /\ Forall (fun c => is_marker c = true) b.
Proof.
  intros GB WA WB LA LB [m Hexec]. unfold strip. rewrite Hexec.
  apply exec_anchored in Hexec as (y & Hsem & ->). cbv zeta in *.
  set (x0 := start_state _ O t) in *.
  assert (Hline : one_line t).
  { destruct (sem_consumes _ _ _ Hsem) as (w & E & _ & F).
    assert (Hend : rest y = []).
    { apply sem_seq_inv in Hsem as (z1 & _ & Hs1).
      apply sem_seq_inv in Hs1 as (z2 & _ & Hs2).
      inversion Hs2 as [| |? ? ? z3 ? _ Hs3| | | | | | | | |]; subst.
      inversion Hs3; subst. assumption. }
    cbn [start_state rest x0] in E. rewrite Hend, app_nil_r in E. subst w.
    specialize (F (fun c => negb (is_line_terminator c))).
    eapply Forall_impl; [apply F|].
    - unfold Dot. cbn [within]. repeat split; try assumption. intros c Hc. exact Hc.
    - intros c Hc. cbv beta in Hc. apply negb_true_iff in Hc. exact Hc. }
  split; [exact Hline|].
  inversion Hsem as [| |? ? ? x1 ? H1 Hsem1| | | | | | | | |]; subst; clear Hsem.
  inversion Hsem1 as [| |? ? ? x2 ? H2 Hsem2| | | | | | | | |]; subst; clear Hsem1.
  inversion Hsem2 as [| |? ? ? x3 ? H3 H4| | | | | | | | |]; subst; clear Hsem2.
  inversion H4; subst; clear H4.
  destruct (sem_consumes _ _ _ H1) as (a & Ea & Pa & Fa).
  destruct (sem_consumes _ _ _ H2) as (v & Ev & Pv & _).
  destruct (sem_consumes _ _ _ H3) as (b & Eb & Pb & Fb).
  destruct (sem_caps _ _ _ H1) as [L1 _].
  destruct (sem_caps _ _ _ H2) as [L2 _].
  destruct (sem_caps _ _ _ H3) as [L3 C3].
  assert (Hlen0 : (3 < length (caps x0))%nat).
  { subst x0. cbn [start_state caps]. rewrite length_replicate. cbn [ngroups]. lia. }
  assert (Hcap : caps x2 !! 2%nat = Some (Some v)).
  { inversion H2 as [| | | | | | | | |? ? ? x2' Hs| |]; subst.
    destruct (sem_caps _ _ _ Hs) as [L2' _].
    cbn [set_cap caps]. rewrite list_lookup_insert_eq.
    - f_equal. f_equal. apply captured_app; [exact Ev | exact Pv].
    - rewrite L2', L1. lia. }
  rewrite length_insert.
  replace (3 <=? length (caps y))%nat with true
    by (symmetry; apply Nat.leb_le; rewrite L3, L2, L1; lia).
  rewrite list_lookup_insert_ne by lia.
  rewrite C3.
  2:{ cbn [groups]. rewrite GB. intros Hin. apply list_elem_of_singleton in Hin. lia. }
  rewrite Hcap. exists a, b. split.
  - change t with (rest x0). rewrite Ea, Ev, Eb.
    match goal with H : rest y = [] |- _ => rewrite H end.
    rewrite app_nil_r. reflexivity.
  - split; [apply Fa, WA | apply Fb, WB].
Qed.

Lemma strip_matches A B t :
  well_quantified (Opt (Group 1 A) -:- Group 2 (Star false Dot)
                     -:- Opt (Group 3 B) -:- Eol) = true ->
  one_line t ->
  is_Some (exec (Bol -:- Opt (Group 1 A) -:- Group 2 (Star false Dot) -:- Opt (Group 3 B) -:- Eol) t).
Proof.
  intros Hw Hline. apply exec_anchored_iff.
  - exact Hw.
  - set (x0 := start_state _ O t).
    exists (set_cap 2 (captured x0 (mkState (0 + length t) [] (caps x0)))
                    (mkState (0 + length t) [] (caps x0))).
    eapply sem_Seq; [apply sem_OptNone|].
    eapply sem_Seq; [|eapply sem_Seq; [apply sem_OptNone | apply sem_Eol; reflexivity]].
    apply sem_Group.
    pose proof (sem_star_chars false (fun c => negb (is_line_terminator c)) t O [] (caps x0)) as H.
    rewrite app_nil_r in H. apply H.
    eapply Forall_impl; [exact Hline|]. intros c Hc. cbv beta. rewrite Hc. reflexivity.
Qed.

Lemma trims_unmarked t v :
  trims t v ->
  (forall c, head t = Some c -> is_marker c = false) ->
  (forall c, last t = Some c -> is_marker c = false) ->
  v = t.
Proof.
  intros (a & b & -> & Fa & Fb) Hh Hl.
  assert (Ha : a = []).
  { destruct a as [|c a]; [reflexivity|]. inversion Fa as [|? ? Hc _]; subst.
    rewrite (Hh c eq_refl) in Hc. discriminate. }
  assert (Hb : b = []).
  { destruct b as [|c b _] using rev_ind; [reflexivity|].
    apply Forall_app in Fb as [_ Fb]. inversion Fb as [|? ? Hc _]; subst.
    rewrite (Hl c) in Hc; [discriminate|].
    rewrite !app_assoc. apply last_snoc. }
  subst. rewrite app_nil_r. reflexivity.
Qed.

Lemma strip_law_holds A B :
  groups B = [] -> within is_marker A -> within is_marker B ->
  within (fun c => negb (is_line_terminator c)) A ->
  within (fun c => negb (is_line_terminator c)) B ->
  well_quantified (Opt (Group 1 A) -:- Group 2 (Star false Dot)
                     -:- Opt (Group 3 B) -:- Eol) = true ->
  strip_law (Bol -:- Opt (Group 1 A) -:- Group 2 (Star false Dot) -:- Opt (Group 3 B) -:- Eol).
Proof.
  intros GB WA WB LA LB Hw t.
  assert (Htrim : one_line t ->
            trims t (strip (Bol -:- Opt (Group 1 A) -:- Group 2 (Star false Dot)
                                -:- Opt (Group 3 B) -:- Eol) t)).
  { intros Hline.
    destruct (strip_matched A B t GB WA WB LA LB (strip_matches A B t Hw Hline))
      as (_ & a & b & E & Fa & Fb).
    exists a, b. split; [exact E | split; assumption]. }
  split; [|split].
  - intros Hnot. unfold strip.
    destruct (exec _ t) as [m|] eqn:Hexec; [|reflexivity].
    exfalso. apply Hnot.
    apply (strip_matched A B t GB WA WB LA LB). rewrite Hexec. eexists; reflexivity.
  - exact Htrim.
  - intros Hline Hh Hl. apply (trims_unmarked t _ (Htrim Hline) Hh Hl).
Qed.

Ltac not_terminator :=
  unfold emphasis, punctuation, DQuote, Plus; cbn [within Lit]; unfold Chr;
  cbn [within]; repeat split; intros c Hc; apply N.eqb_eq in Hc; subst c; reflexivity.

(** X21.  Each of the four strips returns the empty string for a token that
    contains a line terminator; otherwise it returns the token without
    some leading and trailing marker characters, and the token itself
    when its first and last characters are not markers. *)
Theorem strips_trim_markers_only :
  strip_law STRIP_HIGHLIGHTS /\ strip_law STRIP_FORMATTING /\
  strip_law STRIP_PUNCTUATION /\ strip_law STRIP_WIKI_LINKS.
Proof.
  repeat split; apply strip_law_holds;
    first [ reflexivity | marker_class | not_terminator ].
Qed.

(** *** Splitting at word boundaries *)

Lemma run_boundary_inv q s cs y :
  run WORD_BOUNDARY (mkState q s cs) Some = Some y ->
  exists w, w <> [] /\ Forall (fun c => is_boundary c = true) w /\
            s = w ++ rest y /\ pos y = (q + length w)%nat.
Proof.
  intros H. apply run_sound in H as (y' & Hsem & Hy). injection Hy as ->.
  apply sem_plus_chars_inv in Hsem as (w & Hne & Hw & E & P & _).
  exists w. repeat split; assumption.
Qed.

Lemma run_boundary_some q c s cs :
  is_boundary c = true -> is_Some (run WORD_BOUNDARY (mkState q (c :: s) cs) Some).
Proof.
  intros Hc.
  apply (run_complete WORD_BOUNDARY _ (mkState (q + 1) s cs)) with (z := mkState (q + 1) s cs);
    [|reflexivity|reflexivity].
  apply (sem_plus_chars is_boundary [c] q s cs); [discriminate|].
  constructor; [exact Hc | constructor].
Qed.

Lemma split_loop_boundary s : forall q cur skip,
  Forall (fun c => is_boundary c = true) (take skip s) -> (skip <= length s)%nat ->
  Forall (fun c => is_boundary c = false) cur ->
  concat (split_loop WORD_BOUNDARY q cur skip s)
    = match skip with O => rev cur | S _ => [] end ++ filter (fun c => is_boundary c = false) s
  /\ Forall (Forall (fun c => is_boundary c = false)) (split_loop WORD_BOUNDARY q cur skip s).
Proof.
  induction s as [|c s IH]; intros q cur skip Hskip Hlen Hcur.
  - simpl in Hlen. assert (skip = O) by lia. subst skip. cbn [split_loop concat].
    rewrite filter_nil, !app_nil_r.
    split; [reflexivity|]. constructor; [|constructor]. apply Forall_rev, Hcur.
  - cbn [split_loop]. destruct skip as [|k].
    + destruct (run WORD_BOUNDARY (start_state WORD_BOUNDARY q (c :: s)) Some) as [y|] eqn:Hrun.
      * apply run_boundary_inv in Hrun as (w & Hne & Hw & E & P).
        destruct w as [|c' w]; [contradiction|]. injection E as <- E.
        inversion Hw as [|? ? Hc Hw']; subst.
        replace (pos y =? q)%nat with false by (symmetry; apply Nat.eqb_neq; simpl in P; lia).
        replace (pos y - q - 1)%nat with (length w) by (simpl in P; lia).
        destruct (IH (S q) [] (length w)) as [Hcat Hall].
        { rewrite take_app_length. exact Hw'. }
        { rewrite length_app. lia. }
        { constructor. }
        split.
        -- cbn [concat]. rewrite Hcat. rewrite filter_cons_False by congruence.
           destruct (length w); reflexivity.
        -- constructor; [apply Forall_rev, Hcur | exact Hall].
      * assert (Hc : is_boundary c = false).
        { destruct (is_boundary c) eqn:Hc; [|reflexivity].
          destruct (run_boundary_some q c s (replicate 1 None) Hc) as [z Hz].
          assert (Hz' : run WORD_BOUNDARY (start_state WORD_BOUNDARY q (c :: s)) Some = Some z)
            by exact Hz.
          congruence. }
        destruct (IH (S q) (c :: cur) O) as [Hcat Hall].
        { constructor. } { lia. } { constructor; assumption. }
        split; [|exact Hall].
        rewrite Hcat. cbn [rev]. rewrite filter_cons_True by exact Hc.
        rewrite <- app_assoc. reflexivity.
    + cbn [take] in Hskip. inversion Hskip as [|? ? Hc Hk]; subst.
      destruct (IH (S q) [] k Hk) as [Hcat Hall]; [simpl in Hlen; lia | constructor |].
      split; [|exact Hall].
      rewrite Hcat. rewrite filter_cons_False by congruence.
      destruct k; reflexivity.
Qed.

Lemma split_loop_nonempty r s : forall q cur skip, split_loop r q cur skip s <> [].
Proof.
  induction s as [|c s IH]; intros q cur skip; cbn [split_loop]; [discriminate|].
  destruct skip; [|apply IH].
  destruct (run r _ Some); [|apply IH].
  destruct (_ =? _)%nat; [|discriminate].
  destruct cur; [apply IH | discriminate].
Qed.

(** X17.  Splitting at [WORD_BOUNDARY] loses the boundary characters and
    nothing else: the candidates, concatenated, are the content without
    its boundary characters, no candidate contains one, and there is
    always at least one candidate. *)
Theorem split_drops_boundaries_only (content : jsstring) :
  concat (Regex.split WORD_BOUNDARY content) = filter (fun c => is_boundary c = false) content /\
  Forall (Forall (fun c => is_boundary c = false)) (Regex.split WORD_BOUNDARY content) /\
  Regex.split WORD_BOUNDARY content <> [].
Proof.
  destruct content as [|c s].
  - cbn. repeat split; [|discriminate]. constructor; constructor.
  - cbn [Regex.split].
    destruct (split_loop_boundary (c :: s) O [] O) as [Hcat Hall];
      [constructor | lia | constructor |].
    split; [exact Hcat|]. split; [exact Hall|].
    apply split_loop_nonempty.
Qed.

(** *** Blank content *)

Lemma trimStart_nil s : trimStart s = [] <-> Forall (fun c => is_white_space c = true) s.
Proof.
  induction s as [|c s IH]; simpl.
  - split; [constructor | reflexivity].
  - destruct (is_white_space c) eqn:Hc.
    + rewrite IH. split; [intros H; constructor; assumption | intros H; inversion H; assumption].
    + split; [discriminate | intros H; inversion H; congruence].
Qed.

Lemma trimStart_head s c s' : trimStart s = c :: s' -> is_white_space c = false.
Proof.
  induction s as [|a s IH]; simpl; [discriminate|].
  destruct (is_white_space a) eqn:Ha; [exact IH|]. intros H; injection H as <- _. exact Ha.
Qed.

Lemma trim_nil s : trim s = [] <-> Forall (fun c => is_white_space c = true) s.
Proof.
  unfold trim. rewrite <- trimStart_nil. split.
  - intros H. apply (f_equal (@rev N)) in H. rewrite rev_involutive in H. simpl in H.
    apply trimStart_nil in H. apply Forall_rev in H. rewrite rev_involutive in H.
    destruct (trimStart s) as [|c s'] eqn:Hs; [reflexivity|].
    apply trimStart_head in Hs. inversion H; congruence.
  - intros ->. reflexivity.
Qed.

(** X16.  [trim] leaves nothing exactly of a content made of white space and
    line terminators only, and such a content (the empty one included)
    has no tokens, for both tokenizers and whatever the receiver of the
    strip callbacks. *)
Theorem blank_content_has_no_tokens (cb : This) (t : Tokenizer) (content : jsstring) :
  (trim content = [] <-> Forall (fun c => is_white_space c = true) content) /\
  (Forall (fun c => is_white_space c = true) content ->
     tokenize_with cb content = Ok [] /\ tokenize t content = Ok []).
Proof.
  split; [apply trim_nil|]. intros Hblank. apply trim_nil in Hblank.
  assert (H : tokenize_with cb content = Ok []).
  { unfold tokenize_with. destruct (decide (trim content = [])); [reflexivity | contradiction]. }
  split; [exact H|]. destruct t; [reflexivity|].
  unfold tokenize, markdown_tokenize, tokenize_with.
  destruct (decide (trim content = [])); [reflexivity | contradiction].
Qed.

(** *** The tokenizer as written *)

Lemma map_exc_stripAll_undefined l :
  (Forall (fun a => a = []) l -> map_exc (stripAll_with this_undefined) l = Ok l) /\
  (~ Forall (fun a => a = []) l -> map_exc (stripAll_with this_undefined) l = Throw TypeError).
Proof.
  induction l as [|a l [IH1 IH2]]; split.
  - reflexivity.
  - intros H. exfalso. apply H. constructor.
  - intros H. inversion H as [|? ? -> Hl]; subst. simpl. rewrite (IH1 Hl). reflexivity.
  - intros H. simpl. destruct (decide (a = [])) as [->|Hne].
    + unfold stripAll_with at 1. simpl. rewrite IH2; [reflexivity|].
      intros Hl. apply H. constructor; [reflexivity | exact Hl].
    + pose proof (stripAll_as_written a Hne) as Ha. unfold stripAll in Ha.
      rewrite Ha. reflexivity.
Qed.

(** X15.  The markdown tokenizer as written either returns no token at all or
    throws a [TypeError]; it throws exactly when the content is not blank
    and some non-empty candidate of the split passes the three filters. *)
Theorem markdown_tokenize_outcome (content : jsstring) :
  (markdown_tokenize content = Ok [] \/ markdown_tokenize content = Throw TypeError) /\
  (markdown_tokenize content = Throw TypeError <->
     trim content <> [] /\
     exists candidate,
       candidate ∈ Regex.split WORD_BOUNDARY content /\ candidate <> [] /\
       isNonWord candidate = false /\ isNumber candidate = false /\
       isCodeBlockHeader candidate = false).
Proof.
  unfold markdown_tokenize, tokenize_with.
  destruct (decide (trim content = [])) as [Hblank|Hblank].
  - split; [left; reflexivity|]. split; [discriminate | intros [H _]; contradiction].
  - set (candidates := filter _ (filter _ (filter _ (Regex.split WORD_BOUNDARY content)))).
    assert (Hin : forall a, a ∈ candidates <->
              a ∈ Regex.split WORD_BOUNDARY content /\ isNonWord a = false /\
              isNumber a = false /\ isCodeBlockHeader a = false).
    { intros a. subst candidates. rewrite !list_elem_of_filter. tauto. }
    destruct (map_exc_stripAll_undefined candidates) as [Hok Hthrow].
    destruct (decide (Forall (fun a => a = []) candidates)) as [Hall|Hsome].
    + rewrite (Hok Hall). cbn [bind].
      assert (Hnone : filter (fun token : jsstring => (0 < length token)%nat) candidates = []).
      { clear -Hall. induction Hall as [|a l -> _ IH]; [reflexivity|].
        rewrite filter_cons_False by (simpl; lia). exact IH. }
      rewrite Hnone. split; [left; reflexivity|]. split; [discriminate|].
      intros (_ & a & Ha & Hne & H1 & H2 & H3). exfalso.
      rewrite Forall_forall in Hall. apply Hne, Hall, Hin. repeat split; assumption.
    + rewrite (Hthrow Hsome). cbn [bind]. split; [right; reflexivity|].
      split; [|reflexivity]. intros _. split; [exact Hblank|].
      apply not_Forall_Exists in Hsome; [|intros a; apply _].
      apply Exists_exists in Hsome as (a & Ha & Hne).
      exists a. apply Hin in Ha as (H0 & H1 & H2 & H3). repeat split; assumption.
Qed.

Local Open Scope Z_scope.

(** X14.  [collect] returns nothing exactly when the metadata cache answers
    [null] or throws; a record it returns counts one file that is either
    a note or an attachment (a note exactly for a markdown extension),
    carries the size of the file, has non-negative link and tag counts
    and a quality equal to its link count. *)
Theorem collect_record_shape (env : Env) (file : TFile) :
  (collect env file = None <->
     getFileCache env file = CacheNull \/ getFileCache env file = CacheThrows) /\
  (forall r, collect env file = Some r ->
     FVM.files r = 1 /\ FVM.notes r + FVM.attachments r = 1 /\
     (FVM.notes r = 1 <-> getFileType file = Note) /\
     FVM.size r = stat_size file /\
     0 <= FVM.links r /\ 0 <= FVM.tags r /\
     FVM.quality r = inject_Z (FVM.links r)).
Proof.
  split.
  - unfold collect. destruct (getFileCache env file) as [| |m].
    + split; [right; reflexivity | reflexivity].
    + split; [left; reflexivity | reflexivity].
    + split; [|intros [H|H]; discriminate].
      unfold getFileType. destruct (extension file) as [e|]; [|discriminate].
      destruct (decide (toLowerCase e = js "md")); discriminate.
  - intros r Hr. destruct (collect_well_formed env file r Hr)
      as ((Hf & Hna & Hn & Ha & Hl & Ht & _ & Hq) & Hs).
    repeat split; try assumption.
    + intros Hn1. unfold collect in Hr. destruct (getFileCache env file); try discriminate.
      destruct (getFileType file); try discriminate; [reflexivity|].
      injection Hr as <-. discriminate.
    + intros Hnote. unfold collect in Hr. destruct (getFileCache env file); try discriminate.
      rewrite Hnote in Hr. injection Hr as <-. reflexivity.
Qed.

(** *** Instances *)

(** An excluded file is created and a drain runs. *)
Lemma excluded_key_never_stored_witness :
  data (run_events [EvCreated (IsFile (mkTFile (js "archive/old.md") (Some (js "md")) 10));
                    EvInterval archive_env] (fresh (js "archive")))
    !! js "archive/old.md" = None.
Proof.
  apply (excluded_key_never_stored _ (js "archive") (js "archive/old.md")).
  vm_compute; reflexivity.
Defined.

(** A note whose only paragraph is [Hello world.]. *)
Lemma word_count_is_always_zero_witness :
  exists r, collect links_env upper_case_note = Some r /\ FVM.words r = 0.
Proof.
  destruct word_count_is_always_zero as [Hrec _].
  eexists. split; [reflexivity|]. apply (Hrec links_env upper_case_note). reflexivity.
Defined.

(** A path and a file with different keys. *)
Lemma update_commutes_witness :
  update (inr (js "a.md")) (Some stale_record)
    (update (inl picture) (Some (FVM.mk 1 0 1 2048 0 0 0%Q 0)) (fresh []))
  = update (inl picture) (Some (FVM.mk 1 0 1 2048 0 0 0%Q 0))
      (update (inr (js "a.md")) (Some stale_record) (fresh [])).
Proof.
  apply (update_commutes (inr (js "a.md")) (inl picture)). vm_compute. discriminate.
Defined.

(** An upper-case extension and a picture. *)
Lemma getFileType_note_iff_witness :
  getFileType upper_case_note = Note /\ getFileType picture <> Note.
Proof.
  split.
  - apply (getFileType_note_iff upper_case_note). exists (js "MD").
    split; [reflexivity | right; right; right; reflexivity].
  - apply (getFileType_note_iff picture). reflexivity.
Defined.

(** A start over a picture listed twice and a folder. *)
Lemma start_queues_every_file_witness :
  js "img/b.png" ∈ backlog (start [IsFile picture; IsFolder (js "img"); IsFile picture] stale_state) /\
  data (start [IsFile picture; IsFolder (js "img"); IsFile picture] stale_state) = ∅.
Proof.
  destruct (start_queues_every_file [IsFile picture; IsFolder (js "img"); IsFile picture]
              stale_state) as (Hd & _ & _ & _ & Hk).
  split; [|exact Hd]. apply Hk. exists picture. split; [left | reflexivity].
Defined.

(** A picture renamed while another path is queued. *)
Lemma rename_queues_both_paths_witness :
  js "img/b.png" ∈ backlog (onfilerenamed (IsFile picture) (js "img/a.png") stale_state) /\
  js "img/a.png" ∈ backlog (onfilerenamed (IsFile picture) (js "img/a.png") stale_state) /\
  NoDup (backlog (onfilerenamed (IsFile picture) (js "img/a.png") stale_state)).
Proof.
  destruct (rename_queues_both_paths (IsFile picture) (js "img/a.png") stale_state)
    as (Hold & Hnew & _ & Hnd & _).
  split; [apply (Hnew picture eq_refl)|]. split; [exact Hold|].
  apply Hnd. vm_compute. repeat constructor; intros H; inversion H.
Defined.

(** The candidate [is] passes the filters and is not empty. *)
Lemma markdown_tokenize_outcome_witness :
  markdown_tokenize (js "3.14 is pi.") = Throw TypeError.
Proof.
  apply (markdown_tokenize_outcome (js "3.14 is pi.")). split; [vm_compute; discriminate|].
  exists (js "is"). vm_compute. repeat split; try discriminate. right. left.
Defined.

(** Space, tab, line feed and no-break space. *)
Lemma blank_content_has_no_tokens_witness :
  tokenize_with this_undefined [32%N; 9%N; 10%N; 160%N] = Ok [] /\
  tokenize MARKDOWN_TOKENIZER [32%N; 9%N; 10%N; 160%N] = Ok [].
Proof.
  apply (blank_content_has_no_tokens this_undefined MARKDOWN_TOKENIZER [32%N; 9%N; 10%N; 160%N]).
  repeat constructor.
Defined.

(** Two dashes, and a letter followed by a dash. *)
Lemma isNonWord_iff_witness : isNonWord (js "--") = true /\ isNonWord (js "a-") = false.
Proof.
  split.
  - apply (isNonWord_iff (js "--")). split; [discriminate | repeat constructor].
  - vm_compute; reflexivity.
Defined.

(** A decimal number, and a number with a bare full stop. *)
Lemma isNumber_iff_witness : isNumber (js "3.14") = true /\ isNumber (js "3.") = false.
Proof.
  split.
  - apply (isNumber_iff (js "3.14")). exists (js "3").
    split; [split; [discriminate | repeat constructor]|].
    right. exists (js "14"). split; [split; [discriminate | repeat constructor] | reflexivity].
  - vm_compute; reflexivity.
Defined.

(** The opening of a fenced block of JavaScript. *)
Lemma isCodeBlockHeader_iff_witness : isCodeBlockHeader (js "```js") = true.
Proof.
  apply (isCodeBlockHeader_iff (js "```js")). exists (js "js").
  split; [discriminate|]. split; [repeat constructor | reflexivity].
Defined.

(** A segment that is part of a token, and a leading slash. *)
Lemma excluded_iff_segment_in_string_witness :
  excluded (fresh (js "archive,tmp")) (js "notes/chi/a.md") = true /\
  excluded (fresh (js "archive,tmp")) (js "/notes/a.md") = true.
Proof.
  split.
  - destruct (excluded_iff_segment_in_string (fresh (js "archive,tmp")) (js "notes/chi/a.md"))
      as [[_ Hseg] _].
    apply Hseg. exists (js "chi"), (js "ar"), (js "ve,tmp"). split; [|reflexivity].
    right. left.
  - destruct (excluded_iff_segment_in_string (fresh (js "archive,tmp")) (js "notes/a.md"))
      as (_ & _ & _ & Habs).
    exact Habs.
Defined.

(** A word with an inner full stop, and a token with a line separator. *)
Lemma strips_trim_markers_only_witness :
  strip STRIP_PUNCTUATION (js "a.b") = js "a.b" /\
  strip STRIP_HIGHLIGHTS [97%N; 8232%N; 98%N] = [].
Proof.
  destruct strips_trim_markers_only as (Hh & _ & Hp & _).
  split.
  - apply (Hp (js "a.b")).
    + repeat constructor.
    + intros c H; injection H as <-; reflexivity.
    + intros c H; injection H as <-; reflexivity.
  - apply (Hh [97%N; 8232%N; 98%N]). intros H.
    inversion H as [|? ? _ H1]; subst. inversion H1 as [|? ? H2 _]; subst. discriminate.
Defined.

(** A file whose metadata throws, and a picture. *)
Lemma collect_record_shape_witness :
  collect (gone_env CacheThrows) gone = None /\
  exists r, collect links_env picture = Some r /\ FVM.size r = 2048.
Proof.
  split.
  - apply (collect_record_shape (gone_env CacheThrows) gone). right. reflexivity.
  - eexists. split; [reflexivity|].
    apply (collect_record_shape links_env picture). reflexivity.
Defined.

(** ** Drains and what happens meanwhile *)

(** A drain that nothing interrupts ends in the state [processBacklog]
    gives. *)

Lemma resume_backlog pd c : backlog (resume pd c) = backlog c.
Proof. unfold resume. destruct (pend_metrics pd); reflexivity. Qed.




(** As many rounds as the backlog is long are enough. *)
Lemma drain_head_fuel env n : forall c,
  (length (backlog c) <= n)%nat ->
  drain_head env n c = drain_head env (length (backlog c)) c.
Proof.
  induction n as [|n IH]; intros c Hn.
  - destruct (backlog c) eqn:Hb; [reflexivity | simpl in Hn; lia].
  - destruct (backlog c) as [|p queue] eqn:Hb.
    + cbn [drain_head length]. rewrite Hb. reflexivity.
    + cbn [drain_head length]. rewrite Hb.
      destruct (excluded _ p); [reflexivity|].
      assert (Hq : (length (backlog (set_backlog queue c)) <= n)%nat)
        by (cbn [set_backlog backlog]; simpl in Hn; lia).
      destruct (getAbstractFileByPath env p) as [[f|d]|]; try reflexivity;
        (rewrite (IH _ Hq); reflexivity).
Qed.

Lemma processBacklog_nil env c : backlog c = [] -> processBacklog env c = c.
Proof. intros Hb. unfold processBacklog. rewrite Hb. reflexivity. Qed.

Lemma processBacklog_cons env c p queue :
  backlog c = p :: queue ->
  processBacklog env c =
    if excluded (set_backlog queue c) p then set_backlog queue c
    else processBacklog env (process_path env p (set_backlog queue c)).
Proof.
  intros Hb. unfold processBacklog at 1. rewrite Hb. cbn [length processBacklog_loop].
  rewrite Hb. destruct (excluded _ p); [reflexivity|].
  apply processBacklog_loop_fuel. rewrite process_path_backlog. reflexivity.
Qed.

Lemma drain_head_loop env n : forall c,
  (length (backlog c) <= n)%nat ->
  match drain_head env n c with
  | (c', None) => processBacklog env c = c'
  | (c', Some pd) =>
      processBacklog env c = processBacklog env (resume pd c') /\
      (length (backlog c') < length (backlog c))%nat
  end.
Proof.
  induction n as [|n IH]; intros c Hn.
  - cbn [drain_head]. apply processBacklog_nil.
    destruct (backlog c); [reflexivity | simpl in Hn; lia].
  - cbn [drain_head].
    destruct (backlog c) as [|p queue] eqn:Hb; [apply processBacklog_nil, Hb|].
    rewrite (processBacklog_cons env c p queue Hb).
    destruct (excluded (set_backlog queue c) p); [reflexivity|].
    assert (Hq : (length (backlog (set_backlog queue c)) <= n)%nat)
      by (cbn [set_backlog backlog]; simpl in Hn; lia).
    specialize (IH _ Hq). unfold process_path.
    destruct (getAbstractFileByPath env p) as [[f|d]|].
    + split; [reflexivity | cbn [set_backlog backlog length]; lia].
    + destruct (drain_head env n (set_backlog queue c)) as [c' [pd|]]; [|exact IH].
      destruct IH as [IH Hlt]. split; [exact IH|]. cbn [set_backlog backlog length] in *. lia.
    + destruct (drain_head env n (set_backlog queue c)) as [c' [pd|]]; [|exact IH].
      destruct IH as [IH Hlt]. split; [exact IH|]. cbn [set_backlog backlog length] in *. lia.
Qed.

Lemma resumes_of_nothing env n c :
  run_steps (replicate n (StResume O env)) (c, []) = (c, []).
Proof. induction n as [|n IH]; [reflexivity | exact IH]. Qed.

Lemma resumes_of_one env n : forall c pd,
  (length (backlog c) < n)%nat ->
  run_steps (replicate n (StResume O env)) (c, [pd]) = (processBacklog env (resume pd c), []).
Proof.
  induction n as [|n IH]; intros c pd Hn; [lia|].
  cbn [replicate run_steps fold_left step lookup list_lookup].
  pose proof (drain_head_loop env (length (backlog (resume pd c))) (resume pd c) (le_n _)) as Hl.
  destruct (drain_head env (length (backlog (resume pd c))) (resume pd c)) as [c2 [pd'|]].
  - destruct Hl as [Hp Hlt]. rewrite Hp. cbn [insert list_insert].
    apply IH. rewrite resume_backlog in Hlt. lia.
  - rewrite Hl. cbn [delete list_delete]. apply resumes_of_nothing.
Qed.

Lemma drain_alone_is_processBacklog env n c :
  (length (backlog c) <= n)%nat -> drain_alone env n c = (processBacklog env c, []).
Proof.
  intros Hn. unfold drain_alone. cbn [run_steps fold_left step].
  pose proof (drain_head_loop env (length (backlog c)) c (le_n _)) as Hl.
  destruct (drain_head env (length (backlog c)) c) as [c' [pd|]].
  - destruct Hl as [Hp Hlt]. rewrite Hp. cbn [app].
    apply resumes_of_one. lia.
  - rewrite Hl. cbn [app]. apply resumes_of_nothing.
Qed.




(** X6.  A drain that runs alone in a vault that stays as it is,
    nothing being pushed and no other drain running between its start
    and its end, with no queued path excluded: nothing stays suspended, the backlog is empty, and every
    key holds the freshly collected record if it was queued, resolves to
    a file and has metadata, and its previous record (or none)
    otherwise. *)
Theorem drain_alone_without_exclusion (env : Env) (n : nat) (c : Collector) :
  (length (backlog c) <= n)%nat ->
  Forall (fun p => excluded c p = false) (backlog c) ->
  (snd (drain_alone env n c)) = [] /\
  backlog (fst (drain_alone env n c)) = [] /\
  forall k, data (fst (drain_alone env n c)) !! k = drained env (backlog c) (data c !! k) k.
Proof.
  intros Hn Hall. rewrite (drain_alone_is_processBacklog env n c Hn). cbn [fst snd].
  split; [reflexivity|]. apply drain_without_exclusion, Hall.
Qed.

(** X7.  A drain that runs alone in a vault that stays as it is, with
    an excluded path in the backlog, handles the paths queued before the first excluded one as above,
    drops that one and ends, leaving everything behind it queued and
    unhandled. *)
Theorem drain_alone_up_to_excluded (env : Env) (n : nat) (c : Collector)
    (l rest : list jsstring) (p : jsstring) :
  (length (backlog c) <= n)%nat ->
  backlog c = l ++ p :: rest ->
  Forall (fun q => excluded c q = false) l ->
  excluded c p = true ->
  (snd (drain_alone env n c)) = [] /\
  backlog (fst (drain_alone env n c)) = rest /\
  forall k, data (fst (drain_alone env n c)) !! k = drained env l (data c !! k) k.
Proof.
  intros Hn Hb Hl Hp. rewrite (drain_alone_is_processBacklog env n c Hn). cbn [fst snd].
  split; [reflexivity|]. apply (drain_up_to_excluded env c l rest p Hb Hl Hp).
Qed.

(** *** Instances *)


(** A batch with a note, a folder, a picture and a path that is gone. *)
Lemma drain_alone_without_exclusion_witness :
  snd alone_plain = [] /\ backlog (fst alone_plain) = [] /\
  data (fst alone_plain) !! js "pics/b.png" = Some (FVM.mk 1 0 1 30 0 0 0%Q 0) /\
  data (fst alone_plain) !! js "gone.md" = None.
Proof.
  destruct (drain_alone_without_exclusion mixed_env 4 plain_batch) as (Hs & Hb & Hd).
  { vm_compute. lia. } { vm_compute. repeat constructor. }
  unfold alone_plain. split; [exact Hs|]. split; [exact Hb|].
  rewrite !Hd. vm_compute. split; reflexivity.
Defined.

(** A batch with an excluded path in the middle. *)
Lemma drain_alone_up_to_excluded_witness :
  snd alone_mixed = [] /\ backlog (fst alone_mixed) = [js "pics/b.png"] /\
  is_Some (data (fst alone_mixed) !! js "notes/a.md") /\
  data (fst alone_mixed) !! js "pics/b.png" = None.
Proof.
  destruct (drain_alone_up_to_excluded mixed_env 3 mixed_batch [js "notes/a.md"]
              [js "pics/b.png"] (js "archive/old.md")) as (Hs & Hb & Hd).
  { vm_compute. lia. } { reflexivity. } { vm_compute. repeat constructor. }
  { vm_compute; reflexivity. }
  unfold alone_mixed. split; [exact Hs|]. split; [exact Hb|].
  rewrite !Hd. vm_compute. split; [eexists; reflexivity | reflexivity].
Defined.
